(** * Arithmetic Event Horizon: the signature analyser of [event_horizon.py]

    A shallow embedding of the numeric core of [event_horizon.py]
    ([power_mod], [analyze_physics]) and of the probe classification of
    [probe_manual], with the properties its specification states.

    Both core functions are compiled by numba ([@njit]); the prime table is
    an [int64] array.  Every integer of the core is therefore a signed
    64-bit machine integer: it is modelled as a [Z] inside
    [[-2^63, 2^63)], and every addition, subtraction, multiplication and
    negation is followed by an explicit wrap-around ([wrap64]).  [%] and
    [//] round towards minus infinity, as [Z.modulo] and [Z.div] do; [>>]
    is the arithmetic shift [Z.shiftr].  A zero divisor raises
    [ZeroDivisionError], modelled by [None].

    The analytic score is an IEEE-754 binary64 number, modelled by
    [spec_float] at precision 53 and maximal exponent 1024, with the
    operations in source order ([fastmath=True] lets the compiler
    reassociate them; the embedding follows the source, not the compiler).
    The table of logarithms is produced by [numpy.log2], which is not part
    of the program: it is a parameter. *)

From Stdlib Require Import ZArith List Bool Lia Znumtheory.
From Stdlib Require Import SpecFloat.
From Stdlib Require Zmod.ZmodInv.
From Stdlib Require Sorting.Sorted.
Import ListNotations.

Local Open Scope Z_scope.

(** ** Signed 64-bit integers *)

Module Int64.

Definition modulus : Z := 2 ^ 64.
Definition half_modulus : Z := 2 ^ 63.
Definition min_signed : Z := - half_modulus.
Definition max_signed : Z := half_modulus - 1.

(** The value an [int64] register holds after an operation whose exact
    result is [z]. *)
Definition wrap64 (z : Z) : Z := (z + half_modulus) mod modulus - half_modulus.

Definition in_int64 (z : Z) : Prop := min_signed <= z <= max_signed.

Definition add64 (x y : Z) : Z := wrap64 (x + y).
Definition sub64 (x y : Z) : Z := wrap64 (x - y).
Definition mul64 (x y : Z) : Z := wrap64 (x * y).
Definition neg64 (x : Z) : Z := wrap64 (- x).

End Int64.
Import Int64.

(** ** A small error monad: [None] is a raised exception *)

Definition bind {A B : Type} (c : option A) (k : A -> option B) : option B :=
  match c with
  | Some a => k a
  | None => None
  end.

Notation "x <- c ;; k" := (bind c (fun x => k))
  (at level 61, c at next level, right associativity).

(** Python's [a % m] on integers: floor remainder, [ZeroDivisionError] on
    [m = 0]. *)
Definition py_mod (a m : Z) : option Z :=
  if m =? 0 then None else Some (a mod m).

(** [range(n)] *)
Definition range (n : Z) : list Z := map Z.of_nat (seq 0 (Z.to_nat n)).

(** ** The prime table (lines 23-28) *)

Definition PRIMES_COUNT : nat := 400.

(** [sympy.sieve.primerange(lo, hi)]: the primes of [[lo, hi)], ascending.
    The library sieve is rendered by trial division. *)
Definition has_divisor_below (n : Z) (k : nat) : bool :=
  existsb (fun d => n mod d =? 0) (map (fun i => Z.of_nat i + 2) (seq 0 k)).

Definition is_prime (n : Z) : bool :=
  (2 <=? n) && negb (has_divisor_below n (Z.to_nat (Z.sqrt n) - 1)).

Definition primerange (lo hi : Z) : list Z :=
  filter is_prime (map (fun i => Z.of_nat i + lo) (seq 0 (Z.to_nat (hi - lo)))).

Definition PRIMES : list Z :=
  Eval vm_compute in firstn PRIMES_COUNT (primerange 2 3000).

(** ** Modular exponentiation (lines 31-40) *)

(** The [while exp > 0] loop.  [fuel] bounds the number of executions of the
    body; the loop test comes first, so a loop that stops needs no fuel. *)
Fixpoint power_mod_loop (fuel : nat) (res base exp mod_ : Z) : option Z :=
  if exp >? 0 then
    match fuel with
    | O => None
    | S fuel' =>
        let res' := if exp mod 2 =? 1 then (mul64 res base) mod mod_ else res in
        let base' := (mul64 base base) mod mod_ in
        let exp' := Z.shiftr exp 1 in
        power_mod_loop fuel' res' base' exp' mod_
    end
  else Some res.

(** An [int64] exponent is halved at most 63 times before it reaches 0. *)
Definition power_mod_fuel : nat := 64.

Definition power_mod (base exp mod_ : Z) : option Z :=
  base' <- py_mod base mod_ ;;
  power_mod_loop power_mod_fuel 1 base' exp mod_.

(** ** binary64 numbers *)

Module F64.

Definition prec : Z := 53.
Definition emax : Z := 1024.

Definition float64 : Type := spec_float.

Definition add : float64 -> float64 -> float64 := SFadd prec emax.
Definition mul : float64 -> float64 -> float64 := SFmul prec emax.
Definition div : float64 -> float64 -> float64 := SFdiv prec emax.
Definition ltb : float64 -> float64 -> bool := SFltb.

(** Conversion of an integer to the nearest binary64 number. *)
Definition of_int (z : Z) : float64 := binary_normalize prec emax z 0 false.

Definition zero : float64 := S754_zero false.

End F64.

(** ** The signature analyser (lines 42-91) *)

(** Line 59: [fx = (x*x*x + a*x + b) % p]. *)
Definition cubic64 (a b x : Z) : Z :=
  add64 (add64 (mul64 (mul64 x x) x) (mul64 a x)) b.

Definition fx_of (a b p x : Z) : option Z := py_mod (cubic64 a b x) p.

(** Lines 59-65: the value added to [ls_sum] for the residue [x]. *)
Definition legendre_val (a b p x : Z) : option Z :=
  fx <- fx_of a b p x ;;
  if fx =? 0 then Some 0
  else
    val <- power_mod fx (sub64 p 1 / 2) p ;;
    Some (if val =? sub64 p 1 then -1 else val).

(** Lines 57-66: the loop [for x in range(p)], from the running [ls_sum]. *)
Fixpoint ls_sum_loop (a b p : Z) (xs : list Z) (ls_sum : Z) : option Z :=
  match xs with
  | [] => Some ls_sum
  | x :: xs' =>
      val <- legendre_val a b p x ;;
      ls_sum_loop a b p xs' (add64 ls_sum val)
  end.

(** Lines 57-68: [ap = -ls_sum]. *)
Definition local_trace (a b p : Z) : option Z :=
  ls_sum <- ls_sum_loop a b p (range p) 0 ;;
  Some (neg64 ls_sum).

(** Line 76: [Np = p + 1 - ap]. *)
Definition group_order (p ap : Z) : Z := sub64 (add64 p 1) ap.

Definition GLIDE_CAP : Z := 300.

(** Lines 81-87: the loop [while curr > 1 and steps < 300], with its [break].
    The result is the final [steps]. *)
Fixpoint glide_loop (fuel : nat) (Np curr steps : Z) : option Z :=
  if (curr >? 1) && (steps <? GLIDE_CAP) then
    match fuel with
    | O => None
    | S fuel' =>
        let curr' :=
          if curr mod 2 =? 0 then Z.shiftr curr 1 else add64 (mul64 3 curr) 1 in
        let steps' := add64 steps 1 in
        if curr' <? Np then Some steps'
        else glide_loop fuel' Np curr' steps'
    end
  else Some steps.

(** Lines 77-87: [steps = 0; curr = Np] and the loop. *)
Definition glide (Np : Z) : option Z := glide_loop (Z.to_nat GLIDE_CAP) Np Np 0.

Section Analyzer.

(** [numpy.log2] on the entries of the prime table (line 28). *)
Variable np_log2 : Z -> F64.float64.

Definition LOGS2 : list F64.float64 := map np_log2 PRIMES.

(** Lines 53-89: one turn of the loop over the table, from the running
    [(bsd_score, max_glide)]. *)
Definition prime_step (a b : Z) (st : F64.float64 * Z) (i : nat)
  : option (F64.float64 * Z) :=
  let '(bsd_score, max_glide) := st in
  p <- nth_error PRIMES i ;;
  ap <- local_trace a b p ;;
  log2p <- nth_error LOGS2 i ;;
  let bsd_score' :=
    F64.add bsd_score (F64.div (F64.mul (F64.of_int ap) log2p) (F64.of_int p)) in
  let Np := group_order p ap in
  steps <- glide Np ;;
  let max_glide' := if steps >? max_glide then steps else max_glide in
  Some (bsd_score', max_glide').

Fixpoint prime_loop (a b : Z) (idxs : list nat) (st : F64.float64 * Z)
  : option (F64.float64 * Z) :=
  match idxs with
  | [] => Some st
  | i :: idxs' =>
      st' <- prime_step a b st i ;;
      prime_loop a b idxs' st'
  end.

Definition analyze_physics (a b : Z) : option (F64.float64 * Z) :=
  prime_loop a b (seq 0 PRIMES_COUNT) (F64.zero, 0).

End Analyzer.

(** ** The probe classification (lines 117-124) *)

Inductive classification : Type :=
  | HighRankCandidate
  | LowRank
  | Indeterminate.

(** The literals [-25.0] and [-10.0]. *)
Definition lit_m25 : F64.float64 := Eval vm_compute in F64.of_int (-25).
Definition lit_m10 : F64.float64 := Eval vm_compute in F64.of_int (-10).

Definition classify_probe (score : F64.float64) (glide_ : Z) : classification :=
  if F64.ltb score lit_m25 && (glide_ >? 65) then HighRankCandidate
  else if F64.ltb lit_m10 score then LowRank
  else Indeterminate.

(** ** The random search (lines 126-160)

    [mine_titans] draws pairs with [random.randint], skips singular ones,
    analyses the others and appends a line to [titans_found.txt] for each
    "titan".  The draws are an explicit input; a run is a finite number of
    completed turns of the [while True] loop (an interrupt ends it).  The
    line [A=.., B=.., BSD=.., Glide=..] is kept as the four values it
    prints; console output is left out. *)

(** The literal [-28.0]. *)
Definition lit_m28 : F64.float64 := Eval vm_compute in F64.of_int (-28).

(** Line 139, on unbounded Python integers. *)
Definition is_singular (a b : Z) : bool := 4 * a ^ 3 + 27 * b ^ 2 =? 0.

(** Line 144. *)
Definition is_titan (score : F64.float64) (glide_ : Z) : bool :=
  F64.ltb score lit_m28 && (glide_ >? 80).

Record titan_line : Type := {
  line_A : Z;
  line_B : Z;
  line_BSD : F64.float64;
  line_Glide : Z
}.

Record miner_state : Type := {
  attempts : Z;
  titans_file : list titan_line
}.

(** The range of [random.randint(-10**12, 10**12)], both ends included. *)
Definition in_search_range (draw : Z * Z) : Prop :=
  - 1000000000000 <= fst draw <= 1000000000000 /\
  - 1000000000000 <= snd draw <= 1000000000000.

Section Miner.

Variable np_log2 : Z -> F64.float64.

(** Lines 135-153: one turn of the loop on the drawn pair. *)
Definition mine_iteration (st : miner_state) (draw : Z * Z)
  : option miner_state :=
  let '(a, b) := draw in
  if is_singular a b then Some st
  else
    r <- analyze_physics np_log2 a b ;;
    let '(score, glide_) := r in
    let file' :=
      if is_titan score glide_
      then titans_file st ++
             [{| line_A := a; line_B := b;
                 line_BSD := score; line_Glide := glide_ |}]
      else titans_file st in
    Some {| attempts := attempts st + 1; titans_file := file' |}.

Fixpoint mine_titans_run (draws : list (Z * Z)) (st : miner_state)
  : option miner_state :=
  match draws with
  | [] => Some st
  | draw :: draws' =>
      st' <- mine_iteration st draw ;;
      mine_titans_run draws' st'
  end.

End Miner.

(** * Reference definitions

    The quantities of the specification, in exact integer arithmetic;
    the analyser is compared with them below. *)

(** The largest modulus whose squared residues fit in an [int64]. *)
Definition MAX_EXACT_MODULUS : Z := 3037000500.

(** The coefficient range of the random search (line 136). *)
Definition COEFF_BOUND : Z := 10 ^ 12.

(** [f(x) = (x^3 + A x + B) mod p], exactly. *)
Definition f_exact (a b p x : Z) : Z := (x ^ 3 + a * x + b) mod p.

(** The remapped Legendre value of a residue [fx]: 0 for 0, otherwise
    [fx ^ ((p-1)/2) mod p] with [p - 1] read as [-1]. *)
Definition legendre_remap (p fx : Z) : Z :=
  if fx =? 0 then 0
  else
    let v := fx ^ ((p - 1) / 2) mod p in
    if v =? p - 1 then -1 else v.

Definition zsum (l : list Z) : Z := fold_right Z.add 0 l.

(** [ls_sum] and [ap] of the specification. *)
Definition ls_sum_spec (a b p : Z) : Z :=
  zsum (map (fun x => legendre_remap p (f_exact a b p x)) (range p)).

Definition ap_spec (a b p : Z) : Z := - ls_sum_spec a b p.

(** The residue the program computes on line 59, and the trace it leads to. *)
Definition fx_code (a b p x : Z) : Z := cubic64 a b x mod p.

Definition ap_code (a b p : Z) : Z :=
  - zsum (map (fun x => legendre_remap p (fx_code a b p x)) (range p)).

(** The glide of the specification: at most [cap] steps of the 3x+1 map on
    unbounded integers, stopping below the start or at 1. *)
Fixpoint glide_spec_from (cap : nat) (Np curr steps : Z) : Z :=
  match cap with
  | O => steps
  | S cap' =>
      if curr >? 1 then
        let curr' := if Z.even curr then curr / 2 else 3 * curr + 1 in
        if curr' <? Np then steps + 1
        else glide_spec_from cap' Np curr' (steps + 1)
      else steps
  end.

Definition glide_spec (Np : Z) : Z := glide_spec_from 300 Np Np 0.

(** The coefficients for which line 59 does not overflow: the exact cubic
    fits in an [int64] at every residue of every prime of the table. *)
Definition cubic_fits (a b : Z) : Prop :=
  forall x, 0 <= x <= 2740 -> in_int64 (x ^ 3 + a * x + b).

(** The starting values the glide loop is run on: [1 <= Np <= 2 p + 1]. *)
Definition MAX_GROUP_ORDER : Z := 2 * 2741 + 1.

Definition glide_agrees (Np : Z) : bool :=
  match glide Np with
  | Some steps => steps =? glide_spec Np
  | None => false
  end.

(** The running maximum of the glides over a list of primes. *)
Definition resistance_fold (a b : Z) (ps : list Z) (start : Z) : Z :=
  fold_left (fun m p => Z.max m (glide_spec (p + 1 - ap_code a b p))) ps start.

(** A table of weights that keeps the summand of the prime 3 only; it
    isolates one summand of the score. *)
Definition weight_three_only (p : Z) : F64.float64 :=
  if p =? 3 then F64.of_int 1 else F64.zero.

Definition is_zero (f : F64.float64) : bool :=
  match f with
  | S754_zero _ => true
  | _ => false
  end.

Definition is_finite_nonzero (f : F64.float64) : bool :=
  match f with
  | S754_finite _ _ _ => true
  | _ => false
  end.

Section Reference.

Variable np_log2 : Z -> F64.float64.

(** The summand [(ap * log2(p)) / p]. *)
Definition score_term (p ap : Z) : F64.float64 :=
  F64.div (F64.mul (F64.of_int ap) (np_log2 p)) (F64.of_int p).

(** The left fold of the summands in ascending prime order, from [0.0]. *)
Definition score_fold (trace : Z -> Z) (ps : list Z) (start : F64.float64)
  : F64.float64 :=
  fold_left (fun acc p => F64.add acc (score_term p (trace p))) ps start.

Definition analytic_score_spec (a b : Z) : F64.float64 :=
  score_fold (ap_spec a b) PRIMES F64.zero.

(** The running score after the primes 2 and 3. *)
Definition head_score (trace : Z -> Z) : F64.float64 :=
  F64.add (F64.add F64.zero (score_term 2 (trace 2)))
    (score_term 3 (trace 3)).

(** The statement about the analytic score: every local trace is the one of
    the specification, and the score is the fold of their summands. *)
Definition analytic_score_claim (a b : Z) : Prop :=
  (forall p, In p PRIMES -> local_trace a b p = Some (ap_spec a b p)) /\
  exists glide_, analyze_physics np_log2 a b = Some (analytic_score_spec a b, glide_).

End Reference.

(** Strictly ascending lists. *)
Fixpoint ascendingb (l : list Z) : bool :=
  match l with
  | x :: ((y :: _) as tl) => (x <? y) && ascendingb tl
  | _ => true
  end.

(** The draws of a run that are analysed. *)
Definition analysed_draws (draws : list (Z * Z)) : list (Z * Z) :=
  filter (fun d => negb (is_singular (fst d) (snd d))) draws.

(** The lines a drawn pair adds to the file: at most one. *)
Definition lines_of_draw (np_log2 : Z -> F64.float64) (draw : Z * Z)
  : list titan_line :=
  if is_singular (fst draw) (snd draw) then []
  else
    match analyze_physics np_log2 (fst draw) (snd draw) with
    | Some (score, glide_) =>
        if is_titan score glide_
        then [{| line_A := fst draw; line_B := snd draw;
                 line_BSD := score; line_Glide := glide_ |}]
        else []
    | None => []
    end.

(** What a written line records about its curve. *)
Definition line_is_sound (np_log2 : Z -> F64.float64) (l : titan_line) : Prop :=
  is_singular (line_A l) (line_B l) = false /\
  analyze_physics np_log2 (line_A l) (line_B l)
    = Some (line_BSD l, line_Glide l) /\
  is_titan (line_BSD l) (line_Glide l) = true.

(** * Properties *)

(** ** Machine integers *)

Lemma wrap64_small (z : Z) : in_int64 z -> wrap64 z = z.
Proof.
  unfold in_int64, wrap64, min_signed, max_signed, half_modulus, modulus.
  intros H. rewrite Z.mod_small; lia.
Qed.

Lemma wrap64_range (z : Z) : in_int64 (wrap64 z).
Proof.
  unfold in_int64, wrap64, min_signed, max_signed, half_modulus, modulus.
  pose proof (Z.mod_pos_bound (z + 2 ^ 63) (2 ^ 64)). lia.
Qed.

Lemma product_of_residues_fits (m x y : Z) :
  1 < m <= MAX_EXACT_MODULUS -> 0 <= x < m -> 0 <= y < m ->
  mul64 x y = x * y.
Proof.
  unfold MAX_EXACT_MODULUS. intros Hm Hx Hy. apply wrap64_small.
  unfold in_int64, min_signed, max_signed, half_modulus.
  assert (x * y <= 3037000499 * 3037000499)
    by (apply Z.mul_le_mono_nonneg; lia).
  assert (0 <= x * y) by (apply Z.mul_nonneg_nonneg; lia).
  lia.
Qed.

(** ** [power_mod] *)

Lemma shiftr_1_half (e : Z) : Z.shiftr e 1 = e / 2.
Proof. rewrite Z.shiftr_div_pow2 by lia. reflexivity. Qed.

Lemma pow_halving (b e : Z) :
  0 <= e -> b ^ e = (b * b) ^ (e / 2) * b ^ (e mod 2).
Proof.
  intros He.
  rewrite (Z.div_mod e 2) at 1 by lia.
  rewrite Z.pow_add_r, Z.pow_mul_r, Z.pow_2_r.
  - reflexivity.
  - lia.
  - apply Z.div_pos; lia.
  - apply Z.mul_nonneg_nonneg; [lia | apply Z.div_pos; lia].
  - apply Z.mod_pos_bound; lia.
Qed.

(** The invariant of the loop: [res * base ^ exp] keeps its residue. *)
Lemma power_mod_loop_correct (fuel : nat) :
  forall res base exp m,
    1 < m <= MAX_EXACT_MODULUS ->
    0 <= res < m -> 0 <= base < m ->
    0 <= exp < 2 ^ Z.of_nat fuel ->
    power_mod_loop fuel res base exp m = Some ((res * base ^ exp) mod m).
Proof.
  induction fuel as [|fuel IH]; intros res base exp m Hm Hres Hbase Hexp.
  - assert (exp = 0) by (simpl in Hexp; lia). subst exp. simpl.
    rewrite Z.mul_1_r, Z.mod_small; trivial.
  - cbn [power_mod_loop]. destruct (Z.gtb_spec exp 0) as [Hpos|Hnpos].
    + rewrite shiftr_1_half.
      rewrite (product_of_residues_fits m res base) by assumption.
      rewrite (product_of_residues_fits m base base) by assumption.
      assert (Hhalf : 0 <= exp / 2 < 2 ^ Z.of_nat fuel).
      { split; [apply Z.div_pos; lia|].
        apply Z.div_lt_upper_bound; [lia|].
        rewrite Nat2Z.inj_succ, Z.pow_succ_r in Hexp; lia. }
      assert (Hb2 : 0 <= (base * base) mod m < m) by (apply Z.mod_pos_bound; lia).
      rewrite (pow_halving base exp) by lia.
      pose proof (Z.mod_pos_bound exp 2 ltac:(lia)) as Hbit.
      destruct (Z.eqb_spec (exp mod 2) 1) as [Hodd|Heven].
      * rewrite IH; try assumption; [|apply Z.mod_pos_bound; lia].
        f_equal. rewrite Hodd, Z.pow_1_r.
        rewrite <- Z.mul_mod_idemp_r, Z.mod_pow_l, Z.mul_mod_idemp_r by lia.
        rewrite Z.mul_mod_idemp_l by lia. f_equal. ring.
      * assert (Hz : exp mod 2 = 0) by lia.
        rewrite IH; try assumption.
        f_equal. rewrite Hz, Z.pow_0_r, Z.mul_1_r.
        rewrite <- Z.mul_mod_idemp_r, Z.mod_pow_l, Z.mul_mod_idemp_r by lia.
        reflexivity.
    + assert (exp = 0) by lia. subst exp.
      rewrite Z.pow_0_r, Z.mul_1_r, Z.mod_small; trivial.
Qed.

Lemma power_mod_correct (base exp m : Z) :
  1 < m <= MAX_EXACT_MODULUS -> 0 <= exp -> in_int64 exp ->
  power_mod base exp m = Some (base ^ exp mod m).
Proof.
  intros Hm He Hr. unfold power_mod, py_mod.
  destruct (Z.eqb_spec m 0) as [?|_]; [lia|]. cbn [bind].
  rewrite power_mod_loop_correct; try assumption; try lia.
  - rewrite Z.mul_1_l, Z.mod_pow_l. reflexivity.
  - apply Z.mod_pos_bound; lia.
  - unfold in_int64, min_signed, max_signed, half_modulus in Hr.
    unfold power_mod_fuel. change (Z.of_nat 64) with 64. lia.
Qed.

(** ** The prime table *)

Lemma PRIMES_length : length PRIMES = PRIMES_COUNT.
Proof. reflexivity. Qed.

Lemma PRIMES_range (p : Z) : In p PRIMES -> 2 <= p <= 2741.
Proof.
  assert (H : forallb (fun q => (2 <=? q) && (q <=? 2741)) PRIMES = true)
    by (vm_compute; reflexivity).
  rewrite forallb_forall in H. intros Hin. specialize (H p Hin).
  apply andb_true_iff in H. destruct H as [H1 H2].
  apply Z.leb_le in H1. apply Z.leb_le in H2. lia.
Qed.

Lemma no_divisor_below (n : Z) (k : nat) :
  has_divisor_below n k = false ->
  forall d, 2 <= d < Z.of_nat k + 2 -> ~ (d | n).
Proof.
  unfold has_divisor_below. intros H d Hd Hdiv.
  assert (Hex : existsb (fun d => n mod d =? 0)
                  (map (fun i => Z.of_nat i + 2) (seq 0 k)) = true).
  { apply existsb_exists. exists d. split.
    - apply in_map_iff. exists (Z.to_nat (d - 2)). split; [lia|].
      apply in_seq. lia.
    - apply Z.eqb_eq. apply Z.mod_divide; [lia | assumption]. }
  congruence.
Qed.

(** Trial division up to the square root decides primality. *)
Lemma is_prime_sound (n : Z) : is_prime n = true -> Z.prime n.
Proof.
  unfold is_prime. intros H. apply andb_true_iff in H. destruct H as [H2 Hnd].
  apply Z.leb_le in H2. apply negb_true_iff in Hnd.
  pose proof (no_divisor_below n _ Hnd) as Hno.
  pose proof (Z.sqrt_spec n ltac:(lia)) as [Hlo Hhi].
  set (s := Z.sqrt n) in *.
  assert (Hs : 1 <= s) by (subst s; apply Z.sqrt_le_square; lia).
  assert (Hk : Z.of_nat (Z.to_nat s - 1) + 2 = s + 1) by lia.
  rewrite Hk in Hno.
  split; [lia|]. intros m Hm [q Hq].
  assert (Hqpos : 1 < q) by nia.
  destruct (Z_le_gt_dec m s) as [Hle|Hgt].
  - apply (Hno m); [lia | exists q; exact Hq].
  - assert (Hqs : q <= s) by nia.
    apply (Hno q); [lia | exists m; lia].
Qed.

Lemma PRIMES_prime (p : Z) : In p PRIMES -> Z.prime p.
Proof.
  assert (H : forallb is_prime PRIMES = true) by (vm_compute; reflexivity).
  rewrite forallb_forall in H. intros Hin. apply is_prime_sound. auto.
Qed.

(** ** Euler's criterion, in the form the remap relies on *)

Lemma odd_prime_half (p : Z) : Z.prime p -> p <> 2 -> 2 * ((p - 1) / 2) = p - 1.
Proof.
  intros [Hp Hnd] Hne.
  assert (Hodd : p mod 2 = 1).
  { pose proof (Z.mod_pos_bound p 2 ltac:(lia)).
    destruct (Z.eq_dec (p mod 2) 0) as [Hz|]; [|lia].
    exfalso. apply (Hnd 2); [lia|]. apply Z.mod_divide; [lia | exact Hz]. }
  pose proof (Z.div_mod p 2 ltac:(lia)).
  pose proof (Z.div_mod (p - 1) 2 ltac:(lia)).
  pose proof (Z.mod_pos_bound (p - 1) 2 ltac:(lia)).
  lia.
Qed.

Lemma euler_criterion_pm1 (p r : Z) :
  Z.prime p -> 0 < r < p ->
  r ^ ((p - 1) / 2) mod p = 1 \/ r ^ ((p - 1) / 2) mod p = p - 1.
Proof.
  intros Hp Hr. pose proof (Z.prime_ge_2 p Hp) as Hge.
  destruct (Z.eq_dec p 2) as [->|Hne].
  - left. assert (r = 1) by lia. subst r. reflexivity.
  - pose proof (odd_prime_half p Hp Hne) as Hhalf.
    set (e := (p - 1) / 2) in *.
    assert (He : 0 <= e) by lia.
    set (y := r ^ e mod p).
    assert (Hy : 0 <= y < p) by (apply Z.mod_pos_bound; lia).
    assert (Hsq : (y * y) mod p = 1).
    { unfold y. rewrite <- Z.mul_mod by lia.
      rewrite <- Z.pow_add_r by lia.
      replace (e + e) with (p - 1) by lia.
      apply ZmodInv.Z.fermat_nz; [exact Hp|].
      rewrite Z.mod_small; lia. }
    assert (Hdiv : (p | (y - 1) * (y + 1))).
    { apply Z.mod_divide; [lia|].
      replace ((y - 1) * (y + 1)) with (y * y - 1) by ring.
      rewrite Zminus_mod, Hsq, Z.mod_1_l, Z.sub_diag by lia.
      apply Z.mod_0_l. lia. }
    apply Z.divide_prime_mul in Hdiv; [|exact Hp].
    clearbody y. clear Hsq.
    destruct Hdiv as [[k Hk]|[k Hk]].
    + left. assert (k = 0) by nia. lia.
    + right. assert (k = 1) by nia. lia.
Qed.

(** ** Wrap-around is a ring morphism modulo [2^64] *)

Lemma wrap64_shift (z : Z) : exists k, wrap64 z = z + k * modulus.
Proof.
  unfold wrap64. exists (- ((z + half_modulus) / modulus)).
  pose proof (Z.div_mod (z + half_modulus) modulus) as H.
  assert (Hm : modulus <> 0) by (unfold modulus; lia).
  specialize (H Hm). lia.
Qed.

Lemma wrap64_absorb (z k : Z) : wrap64 (z + k * modulus) = wrap64 z.
Proof.
  unfold wrap64.
  replace (z + k * modulus + half_modulus) with (z + half_modulus + k * modulus)
    by ring.
  rewrite Z_mod_plus_full. reflexivity.
Qed.

(** Line 59 computes the cubic up to one final wrap-around. *)
Lemma cubic64_wrap (a b x : Z) : cubic64 a b x = wrap64 (x ^ 3 + a * x + b).
Proof.
  unfold cubic64, add64, mul64.
  destruct (wrap64_shift (x * x)) as [k1 ->].
  destruct (wrap64_shift ((x * x + k1 * modulus) * x)) as [k2 ->].
  destruct (wrap64_shift (a * x)) as [k3 ->].
  destruct (wrap64_shift ((x * x + k1 * modulus) * x + k2 * modulus
                          + (a * x + k3 * modulus))) as [k4 ->].
  rewrite <- (wrap64_absorb (x ^ 3 + a * x + b) (k1 * x + k2 + k3 + k4)).
  f_equal. ring.
Qed.

Lemma cubic64_exact (a b x : Z) :
  in_int64 (x ^ 3 + a * x + b) -> cubic64 a b x = x ^ 3 + a * x + b.
Proof. intros H. rewrite cubic64_wrap. apply wrap64_small. exact H. Qed.

(** ** The per-residue value *)

Lemma small_in_int64 (z : Z) : -4611686018427387904 <= z <= 4611686018427387904 -> in_int64 z.
Proof. unfold in_int64, min_signed, max_signed, half_modulus. lia. Qed.

Lemma fx_code_range (a b p x : Z) : 0 < p -> 0 <= fx_code a b p x < p.
Proof. intros Hp. unfold fx_code. apply Z.mod_pos_bound. exact Hp. Qed.

Lemma fx_of_code (a b p x : Z) :
  p <> 0 -> fx_of a b p x = Some (fx_code a b p x).
Proof.
  intros Hp. unfold fx_of, py_mod, fx_code.
  destruct (Z.eqb_spec p 0) as [?|_]; [contradiction | reflexivity].
Qed.

Lemma legendre_val_code (a b p x : Z) :
  In p PRIMES ->
  legendre_val a b p x = Some (legendre_remap p (fx_code a b p x)).
Proof.
  intros Hin. pose proof (PRIMES_range p Hin) as Hp.
  unfold legendre_val, legendre_remap.
  rewrite fx_of_code by lia. cbn [bind].
  destruct (Z.eqb_spec (fx_code a b p x) 0) as [_|Hnz]; [reflexivity|].
  assert (Hsub : sub64 p 1 = p - 1).
  { unfold sub64. apply wrap64_small, small_in_int64. lia. }
  rewrite Hsub.
  rewrite power_mod_correct.
  - reflexivity.
  - unfold MAX_EXACT_MODULUS. lia.
  - apply Z.div_pos; lia.
  - apply small_in_int64.
    pose proof (Z.div_pos (p - 1) 2 ltac:(lia) ltac:(lia)).
    assert ((p - 1) / 2 <= p - 1) by (apply Z.div_le_upper_bound; lia).
    lia.
Qed.

Lemma legendre_remap_values (p fx : Z) :
  Z.prime p -> 0 <= fx < p ->
  legendre_remap p fx = -1 \/ legendre_remap p fx = 0 \/ legendre_remap p fx = 1.
Proof.
  intros Hp Hfx. unfold legendre_remap.
  destruct (Z.eqb_spec fx 0) as [_|Hnz]; [auto|].
  destruct (euler_criterion_pm1 p fx Hp ltac:(lia)) as [H1|Hm1]; cbv zeta.
  - rewrite H1. destruct (Z.eqb_spec 1 (p - 1)); auto.
  - rewrite Hm1, Z.eqb_refl. auto.
Qed.

Lemma legendre_code_values (a b p x : Z) :
  In p PRIMES ->
  -1 <= legendre_remap p (fx_code a b p x) <= 1.
Proof.
  intros Hin. pose proof (PRIMES_range p Hin) as Hp.
  destruct (legendre_remap_values p (fx_code a b p x)) as [H|[H|H]];
    try rewrite H; try lia.
  - apply PRIMES_prime; exact Hin.
  - apply fx_code_range; lia.
Qed.

(** ** The local trace *)

Lemma zsum_bounded (f : Z -> Z) (xs : list Z) :
  (forall x, -1 <= f x <= 1) ->
  - Z.of_nat (length xs) <= zsum (map f xs) <= Z.of_nat (length xs).
Proof.
  intros Hf. induction xs as [|x xs IH]; cbn [map zsum fold_right length].
  - lia.
  - fold (zsum (map f xs)). specialize (Hf x). lia.
Qed.

Lemma ls_sum_loop_code (a b p : Z) (xs : list Z) :
  In p PRIMES ->
  forall ls_sum,
    Z.abs ls_sum + Z.of_nat (length xs) <= 4611686018427387904 ->
    ls_sum_loop a b p xs ls_sum =
      Some (ls_sum + zsum (map (fun x => legendre_remap p (fx_code a b p x)) xs)).
Proof.
  intros Hin. induction xs as [|x xs IH]; intros ls_sum Hbound.
  - cbn [ls_sum_loop map zsum fold_right]. f_equal. lia.
  - cbn [ls_sum_loop map zsum fold_right length] in *.
    rewrite legendre_val_code by exact Hin. cbn [bind].
    pose proof (legendre_code_values a b p x Hin) as Hv.
    assert (Hadd : add64 ls_sum (legendre_remap p (fx_code a b p x))
                   = ls_sum + legendre_remap p (fx_code a b p x)).
    { unfold add64. apply wrap64_small, small_in_int64. lia. }
    rewrite Hadd, IH by lia.
    fold (zsum (map (fun x => legendre_remap p (fx_code a b p x)) xs)).
    f_equal. lia.
Qed.

Lemma range_length (n : Z) : length (range n) = Z.to_nat n.
Proof. unfold range. rewrite length_map, length_seq. reflexivity. Qed.

Lemma range_in (n x : Z) : In x (range n) <-> 0 <= x < n.
Proof.
  unfold range. rewrite in_map_iff. split.
  - intros [i [<- Hi]]. apply in_seq in Hi. lia.
  - intros Hx. exists (Z.to_nat x). split; [lia|]. apply in_seq. lia.
Qed.

Lemma ap_code_range (a b p : Z) : In p PRIMES -> - p <= ap_code a b p <= p.
Proof.
  intros Hin. pose proof (PRIMES_range p Hin) as Hp. unfold ap_code.
  pose proof (zsum_bounded (fun x => legendre_remap p (fx_code a b p x))
                (range p) (fun x => legendre_code_values a b p x Hin)) as H.
  rewrite range_length in H. lia.
Qed.

Lemma local_trace_code (a b p : Z) :
  In p PRIMES -> local_trace a b p = Some (ap_code a b p).
Proof.
  intros Hin. pose proof (PRIMES_range p Hin) as Hp.
  pose proof (ap_code_range a b p Hin) as Hr.
  unfold local_trace. rewrite ls_sum_loop_code.
  - cbn [bind]. f_equal. unfold neg64. rewrite Z.add_0_l.
    fold (ap_code a b p). apply wrap64_small, small_in_int64. lia.
  - exact Hin.
  - rewrite range_length. lia.
Qed.

Lemma cubic_fits_of_bounds (a b : Z) :
  Z.abs a <= 10 ^ 15 -> Z.abs b <= 10 ^ 15 -> cubic_fits a b.
Proof.
  intros Ha Hb x Hx. apply small_in_int64.
  change (10 ^ 15) with 1000000000000000 in *.
  assert (H3 : 0 <= x ^ 3 <= 2740 ^ 3).
  { split; [apply Z.pow_nonneg; lia | apply Z.pow_le_mono_l; lia]. }
  change (2740 ^ 3) with 20570824000 in H3.
  assert (Hax : Z.abs (a * x) <= 1000000000000000 * 2740).
  { rewrite Z.abs_mul. apply Z.mul_le_mono_nonneg; lia. }
  lia.
Qed.

Lemma fx_code_exact (a b p x : Z) :
  cubic_fits a b -> In p PRIMES -> 0 <= x < p ->
  fx_code a b p x = f_exact a b p x.
Proof.
  intros Hfit Hin Hx. pose proof (PRIMES_range p Hin) as Hp.
  unfold fx_code, f_exact. rewrite cubic64_exact; [reflexivity|].
  apply Hfit. lia.
Qed.

Lemma ap_code_exact (a b p : Z) :
  cubic_fits a b -> In p PRIMES -> ap_code a b p = ap_spec a b p.
Proof.
  intros Hfit Hin. unfold ap_code, ap_spec, ls_sum_spec. do 2 f_equal.
  apply map_ext_in. intros x Hx. apply range_in in Hx.
  rewrite fx_code_exact by assumption. reflexivity.
Qed.

(** ** The local group order *)

Lemma group_order_code (a b p : Z) :
  In p PRIMES ->
  group_order p (ap_code a b p) = p + 1 - ap_code a b p /\
  1 <= p + 1 - ap_code a b p <= MAX_GROUP_ORDER.
Proof.
  intros Hin. pose proof (PRIMES_range p Hin) as Hp.
  pose proof (ap_code_range a b p Hin) as Hr.
  unfold group_order, add64, sub64, MAX_GROUP_ORDER.
  rewrite (wrap64_small (p + 1)) by (apply small_in_int64; lia).
  rewrite wrap64_small by (apply small_in_int64; lia). lia.
Qed.

(** ** The glide loop *)

Lemma glide_loop_total (fuel : nat) :
  forall Np curr steps,
    0 <= steps <= GLIDE_CAP -> GLIDE_CAP - steps <= Z.of_nat fuel ->
    exists s, glide_loop fuel Np curr steps = Some s /\ steps <= s <= GLIDE_CAP.
Proof.
  unfold GLIDE_CAP.
  induction fuel as [|fuel IH]; intros Np curr steps Hs Hf;
    cbn [glide_loop]; unfold GLIDE_CAP.
  - assert (steps = 300) by lia. subst steps.
    rewrite andb_false_r. exists 300. split; [reflexivity | lia].
  - destruct ((curr >? 1) && (steps <? 300)) eqn:Hc.
    + apply andb_true_iff in Hc. destruct Hc as [_ Hlt]. apply Z.ltb_lt in Hlt.
      assert (Hadd : add64 steps 1 = steps + 1).
      { unfold add64. apply wrap64_small, small_in_int64. lia. }
      rewrite Hadd.
      match goal with |- context [if ?c <? Np then _ else _] =>
        destruct (c <? Np) end.
      * exists (steps + 1). split; [reflexivity | lia].
      * destruct (IH Np (if curr mod 2 =? 0 then Z.shiftr curr 1
                         else add64 (mul64 3 curr) 1) (steps + 1))
          as [s [Hs1 Hs2]]; try lia.
        exists s. split; [exact Hs1 | lia].
    + exists steps. split; [reflexivity | lia].
Qed.

Lemma glide_total (Np : Z) :
  exists s, glide Np = Some s /\ 0 <= s <= GLIDE_CAP.
Proof.
  unfold glide. apply glide_loop_total; unfold GLIDE_CAP; lia.
Qed.

Lemma glide_spec_from_bounds (cap : nat) :
  forall Np curr steps,
    steps <= glide_spec_from cap Np curr steps <= steps + Z.of_nat cap.
Proof.
  induction cap as [|cap IH]; intros Np curr steps; cbn [glide_spec_from].
  - lia.
  - destruct (curr >? 1); [|lia].
    match goal with |- context [if ?c <? Np then _ else _] =>
      destruct (c <? Np); [lia|] end.
    match goal with |- context [glide_spec_from cap Np ?c ?s] =>
      specialize (IH Np c s) end.
    lia.
Qed.

Lemma glide_spec_range (Np : Z) : 0 <= glide_spec Np <= 300.
Proof.
  unfold glide_spec. pose proof (glide_spec_from_bounds 300 Np Np 0). lia.
Qed.

(** On every starting value that a prime of the table can produce, the
    64-bit loop never overflows and takes the steps of the exact map. *)
Lemma glide_agrees_table :
  forallb glide_agrees
    (map (fun i => Z.of_nat i + 1) (seq 0 (Z.to_nat MAX_GROUP_ORDER))) = true.
Proof. vm_compute. reflexivity. Qed.

Lemma glide_code (Np : Z) :
  1 <= Np <= MAX_GROUP_ORDER -> glide Np = Some (glide_spec Np).
Proof.
  intros HNp. pose proof glide_agrees_table as H.
  rewrite forallb_forall in H. specialize (H Np).
  unfold glide_agrees in H. destruct (glide Np) as [s|].
  - f_equal. apply Z.eqb_eq. apply H.
    apply in_map_iff. exists (Z.to_nat (Np - 1)). split; [lia|].
    apply in_seq. unfold MAX_GROUP_ORDER in *. lia.
  - assert (false = true); [|discriminate]. apply H.
    apply in_map_iff. exists (Z.to_nat (Np - 1)). split; [lia|].
    apply in_seq. unfold MAX_GROUP_ORDER in *. lia.
Qed.

(** ** The loop over the prime table *)

Lemma skipn_nth_error {A : Type} (l : list A) :
  forall k x, nth_error l k = Some x -> skipn k l = x :: skipn (S k) l.
Proof.
  induction l as [|y l IH]; intros [|k] x H; cbn in *; try discriminate.
  - congruence.
  - apply IH. exact H.
Qed.

Lemma fold_max_lower (f : Z -> Z) (l : list Z) :
  forall g, g <= fold_left (fun m p => Z.max m (f p)) l g.
Proof.
  induction l as [|x l IH]; intros g; cbn [fold_left]; [lia|].
  specialize (IH (Z.max g (f x))). lia.
Qed.

Lemma fold_max_upper (f : Z -> Z) (l : list Z) :
  forall g p, In p l -> f p <= fold_left (fun m p => Z.max m (f p)) l g.
Proof.
  induction l as [|x l IH]; intros g p Hin; cbn [fold_left]; [contradiction|].
  destruct Hin as [->|Hin].
  - pose proof (fold_max_lower f l (Z.max g (f p))). lia.
  - apply IH. exact Hin.
Qed.

Lemma fold_max_attained (f : Z -> Z) (l : list Z) :
  forall g,
    fold_left (fun m p => Z.max m (f p)) l g = g \/
    exists p, In p l /\ f p = fold_left (fun m p => Z.max m (f p)) l g.
Proof.
  induction l as [|x l IH]; intros g; cbn [fold_left]; [left; reflexivity|].
  destruct (IH (Z.max g (f x))) as [Heq|[p [Hin Hp]]].
  - rewrite Heq. destruct (Z.max_spec g (f x)) as [[_ Hm]|[_ Hm]]; rewrite Hm.
    + right. exists x. split; [left; reflexivity | reflexivity].
    + left. reflexivity.
  - right. exists p. split; [right; exact Hin | exact Hp].
Qed.

Section AnalyzerFacts.

Variable np_log2 : Z -> F64.float64.
Variables a b : Z.

Lemma prime_step_code (k : nat) (p : Z) (s : F64.float64) (g : Z) :
  nth_error PRIMES k = Some p ->
  prime_step np_log2 a b (s, g) k =
    Some (F64.add s (score_term np_log2 p (ap_code a b p)),
          Z.max g (glide_spec (p + 1 - ap_code a b p))).
Proof.
  intros Hnth. assert (Hin : In p PRIMES) by (eapply nth_error_In; eassumption).
  unfold prime_step. rewrite Hnth. cbn [bind].
  rewrite local_trace_code by exact Hin. cbn [bind].
  unfold LOGS2. rewrite nth_error_map, Hnth. cbn [option_map bind].
  destruct (group_order_code a b p Hin) as [HNp Hrange].
  rewrite HNp, glide_code by exact Hrange. cbn [bind].
  unfold score_term. do 2 f_equal.
  destruct (Z.gtb_spec (glide_spec (p + 1 - ap_code a b p)) g); lia.
Qed.

Lemma prime_loop_code (n : nat) :
  forall (k : nat) (s : F64.float64) (g : Z),
    (k + n <= length PRIMES)%nat ->
    prime_loop np_log2 a b (seq k n) (s, g) =
      Some (score_fold np_log2 (ap_code a b) (firstn n (skipn k PRIMES)) s,
            resistance_fold a b (firstn n (skipn k PRIMES)) g).
Proof.
  induction n as [|n IH]; intros k s g Hk.
  - reflexivity.
  - cbn [seq prime_loop].
    destruct (nth_error PRIMES k) as [p|] eqn:Hnth.
    + rewrite (prime_step_code k p s g Hnth). cbn [bind].
      rewrite IH by lia.
      rewrite (skipn_nth_error PRIMES k p Hnth).
      reflexivity.
    + apply nth_error_None in Hnth. lia.
Qed.

(** The analyser in closed form: two folds over the table. *)
Lemma analyze_physics_code :
  analyze_physics np_log2 a b =
    Some (score_fold np_log2 (ap_code a b) PRIMES F64.zero,
          resistance_fold a b PRIMES 0).
Proof.
  unfold analyze_physics. rewrite prime_loop_code.
  - change (skipn 0 PRIMES) with PRIMES.
    rewrite <- PRIMES_length, firstn_all. reflexivity.
  - rewrite PRIMES_length. lia.
Qed.

Lemma score_fold_ext (t1 t2 : Z -> Z) (ps : list Z) :
  (forall p, In p ps -> t1 p = t2 p) ->
  forall s, score_fold np_log2 t1 ps s = score_fold np_log2 t2 ps s.
Proof.
  unfold score_fold. induction ps as [|p ps IH]; intros Heq s; cbn [fold_left].
  - reflexivity.
  - rewrite (Heq p) by (left; reflexivity).
    apply IH. intros q Hq. apply Heq. right. exact Hq.
Qed.

End AnalyzerFacts.

Lemma resistance_fold_range (a b : Z) : 0 <= resistance_fold a b PRIMES 0 <= 300.
Proof.
  unfold resistance_fold. split.
  - apply fold_max_lower.
  - destruct (fold_max_attained
                (fun p => glide_spec (p + 1 - ap_code a b p)) PRIMES 0)
      as [->|[p [_ <-]]]; [lia | apply glide_spec_range].
Qed.

(** ** Summands that vanish *)

Lemma ap_spec_range (a b p : Z) : In p PRIMES -> - p <= ap_spec a b p <= p.
Proof.
  intros Hin. pose proof (PRIMES_range p Hin) as Hp.
  unfold ap_spec, ls_sum_spec.
  assert (Hv : forall x, -1 <= legendre_remap p (f_exact a b p x) <= 1).
  { intros x.
    destruct (legendre_remap_values p (f_exact a b p x)) as [H|[H|H]];
      try rewrite H; try lia.
    - apply PRIMES_prime; exact Hin.
    - unfold f_exact. apply Z.mod_pos_bound. lia. }
  pose proof (zsum_bounded (fun x => legendre_remap p (f_exact a b p x))
                (range p) Hv) as H.
  rewrite range_length in H. lia.
Qed.

Lemma small_int_times_zero (t : Z) :
  -2741 <= t <= 2741 -> is_zero (F64.mul (F64.of_int t) F64.zero) = true.
Proof.
  intros Ht.
  assert (H : forallb (fun z => is_zero (F64.mul (F64.of_int z) F64.zero))
                (map (fun i => Z.of_nat i - 2741) (seq 0 (Z.to_nat 5483))) = true)
    by (vm_compute; reflexivity).
  rewrite forallb_forall in H. apply H.
  apply in_map_iff. exists (Z.to_nat (t + 2741)). split; [lia|].
  apply in_seq. lia.
Qed.

Lemma zero_over_prime (p : Z) (s : bool) :
  In p PRIMES -> is_zero (F64.div (S754_zero s) (F64.of_int p)) = true.
Proof.
  intros Hin.
  assert (H : forallb (fun q =>
                is_zero (F64.div (S754_zero true) (F64.of_int q)) &&
                is_zero (F64.div (S754_zero false) (F64.of_int q)))
                PRIMES = true)
    by (vm_compute; reflexivity).
  rewrite forallb_forall in H. specialize (H p Hin).
  apply andb_true_iff in H. destruct s; tauto.
Qed.

Lemma unweighted_term_is_zero (p t : Z) :
  In p PRIMES -> p <> 3 -> - p <= t <= p ->
  is_zero (score_term weight_three_only p t) = true.
Proof.
  intros Hin Hne Ht. pose proof (PRIMES_range p Hin) as Hp.
  unfold score_term, weight_three_only.
  destruct (Z.eqb_spec p 3) as [?|_]; [contradiction|].
  pose proof (small_int_times_zero t ltac:(lia)) as Hz.
  destruct (F64.mul (F64.of_int t) F64.zero) as [s| | |]; try discriminate Hz.
  apply zero_over_prime. exact Hin.
Qed.

Lemma add_zero_zero (u v : F64.float64) :
  is_zero u = true -> is_zero v = true -> is_zero (F64.add u v) = true.
Proof.
  destruct u as [su| | |]; try discriminate.
  destruct v as [sv| | |]; try discriminate.
  intros _ _. destruct su, sv; reflexivity.
Qed.

Lemma add_zero_absorbed (x v : F64.float64) :
  is_finite_nonzero x = true -> is_zero v = true -> F64.add x v = x.
Proof.
  destruct x as [| | |sx mx ex]; try discriminate.
  destruct v as [sv| | |]; try discriminate.
  reflexivity.
Qed.

Section VanishingTail.

Variable trace : Z -> Z.
Variable ps : list Z.
Hypothesis ps_terms :
  forall p, In p ps -> is_zero (score_term weight_three_only p (trace p)) = true.

Lemma score_fold_stays_zero (acc : F64.float64) :
  is_zero acc = true ->
  is_zero (score_fold weight_three_only trace ps acc) = true.
Proof.
  unfold score_fold. revert acc ps_terms.
  induction ps as [|p l IH]; intros acc Hterms Hacc; cbn [fold_left].
  - exact Hacc.
  - apply IH.
    + intros q Hq. apply Hterms. right. exact Hq.
    + apply add_zero_zero; [exact Hacc | apply Hterms; left; reflexivity].
Qed.

Lemma score_fold_keeps_value (x : F64.float64) :
  is_finite_nonzero x = true ->
  score_fold weight_three_only trace ps x = x.
Proof.
  unfold score_fold. revert x ps_terms.
  induction ps as [|p l IH]; intros x Hterms Hx; cbn [fold_left].
  - reflexivity.
  - rewrite add_zero_absorbed; [|exact Hx | apply Hterms; left; reflexivity].
    apply IH; [|exact Hx].
    intros q Hq. apply Hterms. right. exact Hq.
Qed.

End VanishingTail.

(** The table after its first two entries: primes other than 3. *)
Lemma PRIMES_tail (p : Z) :
  In p (skipn 2 PRIMES) -> In p PRIMES /\ p <> 3.
Proof.
  intros Hin. split.
  - rewrite <- (firstn_skipn 2 PRIMES). apply in_or_app. right. exact Hin.
  - assert (H : forallb (fun q => negb (q =? 3)) (skipn 2 PRIMES) = true)
      by (vm_compute; reflexivity).
    rewrite forallb_forall in H. specialize (H p Hin).
    apply negb_true_iff in H. apply Z.eqb_neq in H. exact H.
Qed.

(** With the weights of [weight_three_only], the fold is decided by the
    traces at 2 and 3. *)
Lemma score_fold_head (trace : Z -> Z) :
  score_fold weight_three_only trace PRIMES F64.zero =
  score_fold weight_three_only trace (skipn 2 PRIMES)
    (head_score weight_three_only trace).
Proof.
  assert (Hsplit : PRIMES = 2 :: 3 :: skipn 2 PRIMES)
    by (vm_compute; reflexivity).
  generalize dependent (skipn 2 PRIMES). intros tail_ Hsplit.
  rewrite Hsplit. reflexivity.
Qed.

Lemma score_fold_three_only (trace : Z -> Z) :
  (forall p, In p PRIMES -> - p <= trace p <= p) ->
  (is_finite_nonzero (head_score weight_three_only trace) = true ->
   score_fold weight_three_only trace PRIMES F64.zero =
     head_score weight_three_only trace) /\
  (is_zero (head_score weight_three_only trace) = true ->
   is_zero (score_fold weight_three_only trace PRIMES F64.zero) = true).
Proof.
  intros Hrange.
  assert (Htail : forall p, In p (skipn 2 PRIMES) ->
            is_zero (score_term weight_three_only p (trace p)) = true).
  { intros p Hp. destruct (PRIMES_tail p Hp) as [Hp1 Hp2].
    apply unweighted_term_is_zero;
      [exact Hp1 | exact Hp2 | apply Hrange; exact Hp1]. }
  rewrite score_fold_head. split; intros H.
  - apply score_fold_keeps_value; assumption.
  - apply score_fold_stays_zero; assumption.
Qed.

Lemma finite_is_not_zero (f : F64.float64) :
  is_finite_nonzero f = true -> is_zero f = true -> False.
Proof. destruct f; discriminate. Qed.

Lemma analytic_score_spec_eq (np_log2 : Z -> F64.float64) (a b : Z) :
  analytic_score_spec np_log2 a b =
  score_fold np_log2 (ap_spec a b) PRIMES F64.zero.
Proof. unfold analytic_score_spec. reflexivity. Qed.

(** If the program's traces at 2 and 3 leave a non-zero running score and
    those of the specification leave zero, the returned score is not the
    fold of the specification. *)
Lemma three_only_scores_differ (a b : Z) :
  is_finite_nonzero (head_score weight_three_only (ap_code a b)) = true ->
  is_zero (head_score weight_three_only (ap_spec a b)) = true ->
  ~ (exists glide_,
       analyze_physics weight_three_only a b =
         Some (analytic_score_spec weight_three_only a b, glide_)).
Proof.
  intros Hx Hz [g Hg]. rewrite analyze_physics_code in Hg.
  assert (Hscore :
            score_fold weight_three_only (ap_code a b) PRIMES F64.zero
            = analytic_score_spec weight_three_only a b) by congruence.
  rewrite analytic_score_spec_eq in Hscore.
  destruct (score_fold_three_only (ap_code a b) (ap_code_range a b)) as [Hc _].
  destruct (score_fold_three_only (ap_spec a b) (ap_spec_range a b)) as [_ Hs].
  specialize (Hc Hx). specialize (Hs Hz).
  rewrite <- Hscore, Hc in Hs.
  exact (finite_is_not_zero _ Hx Hs).
Qed.

(** * The claims *)

(** ** Modular exponentiation *)

(** C3, as amended.  For every base, every exponent [0 <= e] held in an
    [int64] and every modulus [1 < m <= 3037000500] (so that the product of
    two residues fits in 64 bits), [power_mod base e m] returns
    [base ^ e mod m], which lies in [[0, m)]; [power_mod base 0 m] returns 1;
    and reducing the base modulo [m] beforehand does not change the result. *)
Theorem power_mod_exact (base exp m : Z) :
  1 < m <= MAX_EXACT_MODULUS -> 0 <= exp -> in_int64 exp ->
  power_mod base exp m = Some (base ^ exp mod m) /\
  0 <= base ^ exp mod m < m /\
  power_mod base 0 m = Some 1 /\
  power_mod (base mod m) exp m = power_mod base exp m.
Proof.
  intros Hm He Hr. repeat split.
  - apply power_mod_correct; assumption.
  - apply Z.mod_pos_bound; lia.
  - apply Z.mod_pos_bound; lia.
  - rewrite power_mod_correct; try lia.
    + rewrite Z.pow_0_r, Z.mod_1_l by lia. reflexivity.
    + unfold in_int64, min_signed, max_signed, half_modulus. lia.
  - rewrite !power_mod_correct by assumption.
    rewrite Z.mod_pow_l. reflexivity.
Qed.

Lemma power_mod_exact_witness :
  (1 < 7 <= MAX_EXACT_MODULUS /\ 0 <= 5 /\ in_int64 5) /\
  power_mod (-3) 5 7 = Some ((-3) ^ 5 mod 7) /\
  0 <= (-3) ^ 5 mod 7 < 7 /\
  power_mod (-3) 0 7 = Some 1 /\
  power_mod (-3 mod 7) 5 7 = power_mod (-3) 5 7.
Proof.
  assert (H1 : 1 < 7 <= MAX_EXACT_MODULUS) by (unfold MAX_EXACT_MODULUS; lia).
  assert (H2 : 0 <= 5) by lia.
  assert (H3 : in_int64 5)
    by (unfold in_int64, min_signed, max_signed, half_modulus; lia).
  split; [auto | exact (power_mod_exact (-3) 5 7 H1 H2 H3)].
Defined.

(** C3, as stated, fails for a modulus whose squared residues overflow:
    with [m = 2^32 + 1] the square of the base [2^32] wraps around to 0. *)
Lemma power_mod_overflow_counterexample :
  1 < 4294967297 /\ 0 <= 2 /\
  power_mod 4294967296 2 4294967297 = Some 0 /\
  4294967296 ^ 2 mod 4294967297 = 1 /\
  power_mod 4294967296 2 4294967297 <> Some (4294967296 ^ 2 mod 4294967297).
Proof.
  split; [lia|]. split; [lia|].
  assert (Hcode : power_mod 4294967296 2 4294967297 = Some 0)
    by (vm_compute; reflexivity).
  assert (Hmath : 4294967296 ^ 2 mod 4294967297 = 1)
    by (vm_compute; reflexivity).
  split; [exact Hcode|]. split; [exact Hmath|].
  rewrite Hcode, Hmath. discriminate.
Qed.

(** C10.  With an exponent [e <= 0] and a modulus [m >= 1] the loop test
    fails at once: the loop returns [res = 1] with no fuel at all, that is
    without a single execution of its body, and [power_mod] returns 1
    (no error, no divergence).  In particular [power_mod base 0 1] is 1,
    which is not in [[0, 1)]. *)
Theorem power_mod_nonpositive_exponent (base exp m : Z) :
  exp <= 0 -> 1 <= m ->
  power_mod_loop 0 1 (base mod m) exp m = Some 1 /\
  power_mod base exp m = Some 1 /\
  power_mod base 0 1 = Some 1 /\ ~ (0 <= 1 < 1).
Proof.
  intros He Hm.
  assert (Hloop : forall fuel r b k, power_mod_loop fuel r b exp k = Some r).
  { intros fuel r b k. destruct fuel; cbn [power_mod_loop];
      destruct (Z.gtb_spec exp 0); trivial; lia. }
  split; [|split; [|split]].
  - apply Hloop.
  - unfold power_mod, py_mod. destruct (Z.eqb_spec m 0); [lia|].
    cbn [bind]. apply Hloop.
  - reflexivity.
  - lia.
Qed.

Lemma power_mod_nonpositive_exponent_witness :
  (-3 <= 0 /\ 1 <= 1) /\
  power_mod_loop 0 1 (7 mod 1) (-3) 1 = Some 1 /\
  power_mod 7 (-3) 1 = Some 1 /\
  power_mod 7 0 1 = Some 1 /\ ~ (0 <= 1 < 1).
Proof.
  assert (H1 : -3 <= 0) by lia.
  assert (H2 : 1 <= 1) by lia.
  split; [auto | exact (power_mod_nonpositive_exponent 7 (-3) 1 H1 H2)].
Defined.

(** ** The per-residue value and the local group order *)

(** C4.  For every prime [p] of the table, all integers [A], [B] and every
    residue [0 <= x < p], line 59 yields a residue [fx], the value added to
    [ls_sum] is -1, 0 or 1, and when [fx] is not 0 the call
    [power_mod(fx, (p-1)/2, p)] returns 1 or [p - 1]. *)
Theorem per_residue_value_in_range (a b p x : Z) :
  In p PRIMES -> 0 <= x < p ->
  exists fx val,
    fx_of a b p x = Some fx /\
    legendre_val a b p x = Some val /\
    (val = -1 \/ val = 0 \/ val = 1) /\
    (fx <> 0 ->
     power_mod fx ((p - 1) / 2) p = Some 1 \/
     power_mod fx ((p - 1) / 2) p = Some (p - 1)).
Proof.
  intros Hin Hx. pose proof (PRIMES_range p Hin) as Hp.
  pose proof (PRIMES_prime p Hin) as Hprime.
  pose proof (fx_code_range a b p x ltac:(lia)) as Hfx.
  exists (fx_code a b p x), (legendre_remap p (fx_code a b p x)).
  split; [apply fx_of_code; lia|].
  split; [apply legendre_val_code; exact Hin|].
  split; [apply legendre_remap_values; assumption|].
  intros Hnz. rewrite power_mod_correct.
  - destruct (euler_criterion_pm1 p (fx_code a b p x) Hprime ltac:(lia))
      as [H|H]; rewrite H; auto.
  - unfold MAX_EXACT_MODULUS. lia.
  - apply Z.div_pos; lia.
  - apply small_in_int64.
    pose proof (Z.div_pos (p - 1) 2 ltac:(lia) ltac:(lia)).
    assert ((p - 1) / 2 <= p - 1) by (apply Z.div_le_upper_bound; lia).
    lia.
Qed.

Lemma In_7_PRIMES : In 7 PRIMES.
Proof. apply (nth_error_In PRIMES 3). reflexivity. Qed.

Lemma per_residue_value_in_range_witness :
  (In 7 PRIMES /\ 0 <= 3 < 7) /\
  exists fx val,
    fx_of 0 1 7 3 = Some fx /\
    legendre_val 0 1 7 3 = Some val /\
    (val = -1 \/ val = 0 \/ val = 1) /\
    (fx <> 0 ->
     power_mod fx ((7 - 1) / 2) 7 = Some 1 \/
     power_mod fx ((7 - 1) / 2) 7 = Some (7 - 1)).
Proof.
  assert (H1 : In 7 PRIMES) by exact In_7_PRIMES.
  assert (H2 : 0 <= 3 < 7) by lia.
  split; [auto | exact (per_residue_value_in_range 0 1 7 3 H1 H2)].
Defined.

(** C7.  For all integers [A], [B] and every prime [p] of the table, the
    local trace satisfies [ap <= p] (as [ls_sum >= -p]), so the local group
    order [Np = p + 1 - ap] computed on line 76 is at least 1. *)
Theorem group_order_positive (a b p : Z) :
  In p PRIMES ->
  exists ap,
    local_trace a b p = Some ap /\
    ap <= p /\
    group_order p ap = p + 1 - ap /\
    1 <= group_order p ap.
Proof.
  intros Hin. exists (ap_code a b p).
  pose proof (ap_code_range a b p Hin) as Hr.
  destruct (group_order_code a b p Hin) as [HNp Hrange].
  split; [apply local_trace_code; exact Hin|].
  split; [lia|]. split; [exact HNp|]. rewrite HNp. lia.
Qed.

Lemma group_order_positive_witness :
  In 7 PRIMES /\
  exists ap,
    local_trace 0 1 7 = Some ap /\
    ap <= 7 /\
    group_order 7 ap = 7 + 1 - ap /\
    1 <= group_order 7 ap.
Proof.
  split; [exact In_7_PRIMES | exact (group_order_positive 0 1 7 In_7_PRIMES)].
Defined.

(** C5.  For [|A| <= 10^12], [|B| <= 10^12], a prime [p] of the table
    (so [p <= 2741]) and a residue [0 <= x < p], no operation of
    [x*x*x + A*x + B] leaves the signed 64-bit range, and the [fx] of the
    program is the exact [(x^3 + A x + B) mod p]; [A] and [B] enter the
    cubic unreduced. *)
Theorem cubic_no_overflow (a b p x : Z) :
  Z.abs a <= COEFF_BOUND -> Z.abs b <= COEFF_BOUND ->
  In p PRIMES -> 0 <= x < p ->
  p <= 2741 /\
  in_int64 (x * x) /\ in_int64 (x * x * x) /\ in_int64 (a * x) /\
  in_int64 (x * x * x + a * x) /\ in_int64 (x * x * x + a * x + b) /\
  cubic64 a b x = x * x * x + a * x + b /\
  fx_of a b p x = Some ((x ^ 3 + a * x + b) mod p).
Proof.
  unfold COEFF_BOUND. change (10 ^ 12) with 1000000000000.
  intros Ha Hb Hin Hx. pose proof (PRIMES_range p Hin) as Hp.
  assert (Hxx : 0 <= x * x <= 2740 * 2740).
  { split; [apply Z.mul_nonneg_nonneg; lia | apply Z.mul_le_mono_nonneg; lia]. }
  assert (Hxxx : 0 <= x * x * x <= 2740 * 2740 * 2740).
  { split; [apply Z.mul_nonneg_nonneg; lia | apply Z.mul_le_mono_nonneg; lia]. }
  assert (Hax : Z.abs (a * x) <= 1000000000000 * 2740).
  { rewrite Z.abs_mul. apply Z.mul_le_mono_nonneg; lia. }
  assert (Hcube : x ^ 3 = x * x * x) by ring.
  assert (Hfit : in_int64 (x ^ 3 + a * x + b))
    by (apply small_in_int64; lia).
  split; [lia|].
  split; [apply small_in_int64; lia|].
  split; [apply small_in_int64; lia|].
  split; [apply small_in_int64; lia|].
  split; [apply small_in_int64; lia|].
  split; [apply small_in_int64; lia|].
  split.
  - rewrite cubic64_exact by exact Hfit. lia.
  - rewrite fx_of_code by lia. unfold fx_code.
    rewrite cubic64_exact by exact Hfit. reflexivity.
Qed.

Lemma cubic_no_overflow_witness :
  (Z.abs 1000000000000 <= COEFF_BOUND /\ Z.abs (-1000000000000) <= COEFF_BOUND /\
   In 7 PRIMES /\ 0 <= 6 < 7) /\
  7 <= 2741 /\
  in_int64 (6 * 6) /\ in_int64 (6 * 6 * 6) /\ in_int64 (1000000000000 * 6) /\
  in_int64 (6 * 6 * 6 + 1000000000000 * 6) /\
  in_int64 (6 * 6 * 6 + 1000000000000 * 6 + -1000000000000) /\
  cubic64 1000000000000 (-1000000000000) 6
    = 6 * 6 * 6 + 1000000000000 * 6 + -1000000000000 /\
  fx_of 1000000000000 (-1000000000000) 7 6
    = Some ((6 ^ 3 + 1000000000000 * 6 + -1000000000000) mod 7).
Proof.
  assert (H1 : Z.abs 1000000000000 <= COEFF_BOUND) by (vm_compute; discriminate).
  assert (H2 : Z.abs (-1000000000000) <= COEFF_BOUND) by (vm_compute; discriminate).
  assert (H3 : In 7 PRIMES) by exact In_7_PRIMES.
  assert (H4 : 0 <= 6 < 7) by lia.
  split; [auto |
    exact (cubic_no_overflow 1000000000000 (-1000000000000) 7 6 H1 H2 H3 H4)].
Defined.

(** ** The two signatures *)

(** C1, as amended.  Whenever the exact cubic [x^3 + A x + B] fits in a
    signed 64-bit integer at every [0 <= x <= 2740], each local trace of
    the program is [ap = -ls_sum] with [ls_sum] the sum over the residues
    of the remapped Legendre values of the exact [f(x)], and the analytic
    score is the left fold of the binary64 additions of
    [(ap * log2 p) / p] over the table in ascending order, from [0.0]. *)
Theorem analytic_score_exact (np_log2 : Z -> F64.float64) (a b : Z) :
  cubic_fits a b -> analytic_score_claim np_log2 a b.
Proof.
  intros Hfit. split.
  - intros p Hin. rewrite local_trace_code by exact Hin.
    f_equal. apply ap_code_exact; assumption.
  - exists (resistance_fold a b PRIMES 0).
    rewrite analyze_physics_code. unfold analytic_score_spec.
    do 2 f_equal. apply score_fold_ext.
    intros p Hin. apply ap_code_exact; assumption.
Qed.

Lemma analytic_score_exact_witness :
  cubic_fits 0 1 /\ analytic_score_claim (fun p => F64.of_int p) 0 1.
Proof.
  assert (H : cubic_fits 0 1).
  { intros x Hx. unfold in_int64, min_signed, max_signed, half_modulus.
    assert (0 <= x ^ 3 <= 2740 ^ 3)
      by (split; [apply Z.pow_nonneg; lia | apply Z.pow_le_mono_l; lia]).
    change (2740 ^ 3) with 20570824000 in *. lia. }
  split; [exact H | exact (analytic_score_exact (fun p => F64.of_int p) 0 1 H)].
Defined.

(** C1, as stated, fails once line 59 overflows.  With
    [A = 2^63 - 1], [B = 0] and the prime 3, the residue [x = 1] gives
    [1 + A = 2^63], which wraps around to [-2^63]: the program finds the
    trace -1 where the exact cubic gives 0.  The returned score follows the
    program's trace: with the weights of [weight_three_only] it is the
    summand [-1/3] of the prime 3, while the fold of the specification
    is zero. *)
Lemma analytic_score_overflow_counterexample :
  in_int64 9223372036854775807 /\ In 3 PRIMES /\
  local_trace 9223372036854775807 0 3 = Some (-1) /\
  ap_spec 9223372036854775807 0 3 = 0 /\
  ~ (exists np_log2, analytic_score_claim np_log2 9223372036854775807 0) /\
  ~ (exists glide_,
       analyze_physics weight_three_only 9223372036854775807 0 =
         Some (analytic_score_spec weight_three_only 9223372036854775807 0,
               glide_)).
Proof.
  assert (Hin : In 3 PRIMES) by (apply (nth_error_In PRIMES 1); reflexivity).
  assert (Hcode : local_trace 9223372036854775807 0 3 = Some (-1))
    by (vm_compute; reflexivity).
  assert (Hspec : ap_spec 9223372036854775807 0 3 = 0)
    by (vm_compute; reflexivity).
  split; [unfold in_int64, min_signed, max_signed, half_modulus; lia|].
  split; [exact Hin|]. split; [exact Hcode|]. split; [exact Hspec|]. split.
  - intros [np_log2 [Htrace _]]. specialize (Htrace 3 Hin).
    rewrite Hcode, Hspec in Htrace. discriminate.
  - apply three_only_scores_differ; vm_compute; reflexivity.
Qed.

(** C2.  For all integers [A], [B] the analyser returns; at every prime
    [p] of the table the glide loop, started at [Np = p + 1 - ap], takes
    exactly the steps of the glide of the specification (the 3x+1 map on
    unbounded integers, at most 300 steps, stopping right after a step
    that falls below [Np]); and the dynamic resistance is the maximum of
    these glides: no glide exceeds it and one of them equals it. *)
Theorem dynamic_resistance_is_max_glide
  (np_log2 : Z -> F64.float64) (a b : Z) :
  exists score resistance,
    analyze_physics np_log2 a b = Some (score, resistance) /\
    (forall p, In p PRIMES ->
       exists ap,
         local_trace a b p = Some ap /\
         group_order p ap = p + 1 - ap /\
         glide (p + 1 - ap) = Some (glide_spec (p + 1 - ap)) /\
         glide_spec (p + 1 - ap) <= resistance) /\
    (exists p ap,
       In p PRIMES /\ local_trace a b p = Some ap /\
       glide_spec (p + 1 - ap) = resistance).
Proof.
  exists (score_fold np_log2 (ap_code a b) PRIMES F64.zero),
         (resistance_fold a b PRIMES 0).
  split; [apply analyze_physics_code|]. split.
  - intros p Hin. exists (ap_code a b p).
    destruct (group_order_code a b p Hin) as [HNp Hrange].
    split; [apply local_trace_code; exact Hin|].
    split; [exact HNp|]. split; [apply glide_code; exact Hrange|].
    unfold resistance_fold.
    apply (fold_max_upper (fun q => glide_spec (q + 1 - ap_code a b q))).
    exact Hin.
  - unfold resistance_fold.
    destruct (fold_max_attained
                (fun q => glide_spec (q + 1 - ap_code a b q)) PRIMES 0)
      as [Hzero|[p [Hin Hp]]].
    + (* every glide is 0: any prime attains the maximum *)
      assert (Hin : In 2 PRIMES) by (apply (nth_error_In PRIMES 0); reflexivity).
      exists 2, (ap_code a b 2).
      split; [exact Hin|]. split; [apply local_trace_code; exact Hin|].
      pose proof (fold_max_upper
                    (fun q => glide_spec (q + 1 - ap_code a b q)) PRIMES 0 2 Hin)
        as Hup.
      cbv beta in Hup.
      pose proof (glide_spec_range (2 + 1 - ap_code a b 2)). lia.
    + exists p, (ap_code a b p).
      split; [exact Hin|]. split; [apply local_trace_code; exact Hin|].
      exact Hp.
Qed.

(** C6.  From every starting value (in particular every [Np >= 1]) the
    glide loop stops with a step count of at most 300; hence the dynamic
    resistance returned for any integers [A], [B] is at most 300. *)
Theorem glide_never_exceeds_cap
  (Np : Z) (np_log2 : Z -> F64.float64) (a b : Z) :
  (exists steps, glide Np = Some steps /\ 0 <= steps <= 300) /\
  (exists score resistance,
     analyze_physics np_log2 a b = Some (score, resistance) /\
     0 <= resistance <= 300).
Proof.
  split.
  - apply glide_total.
  - exists (score_fold np_log2 (ap_code a b) PRIMES F64.zero),
           (resistance_fold a b PRIMES 0).
    split; [apply analyze_physics_code | apply resistance_fold_range].
Qed.



(** ** The probe classification *)

(** C8.  The classification depends on [(score, glide)] only, through
    strict comparisons: it is the high-rank candidate exactly when
    [score < -25.0] and [glide > 65]; otherwise low rank exactly when
    [score > -10.0]; indeterminate in every other case.  [(-26.0, 70)] is
    a high-rank candidate and [(-20.0, 90)] is indeterminate. *)
Theorem classify_probe_thresholds (score : F64.float64) (glide_ : Z) :
  (classify_probe score glide_ = HighRankCandidate <->
     F64.ltb score lit_m25 = true /\ 65 < glide_) /\
  (classify_probe score glide_ = LowRank <->
     ~ (F64.ltb score lit_m25 = true /\ 65 < glide_) /\
     F64.ltb lit_m10 score = true) /\
  (classify_probe score glide_ = Indeterminate <->
     ~ (F64.ltb score lit_m25 = true /\ 65 < glide_) /\
     F64.ltb lit_m10 score <> true) /\
  classify_probe (F64.of_int (-26)) 70 = HighRankCandidate /\
  classify_probe (F64.of_int (-20)) 90 = Indeterminate.
Proof.
  assert (Hhigh : classify_probe (F64.of_int (-26)) 70 = HighRankCandidate)
    by (vm_compute; reflexivity).
  assert (Hind : classify_probe (F64.of_int (-20)) 90 = Indeterminate)
    by (vm_compute; reflexivity).
  split; [|split; [|split; [|split; assumption]]]; clear Hhigh Hind;
    unfold classify_probe;
    destruct (F64.ltb score lit_m25);
    destruct (Z.gtb_spec glide_ 65) as [Hg|Hg];
    destruct (F64.ltb lit_m10 score); cbn [andb];
    intuition (congruence || lia).
Qed.

(** * Further properties of the code *)

(** ** The prime table (lines 23-27) *)

Lemma is_prime_complete (n : Z) : Z.prime n -> is_prime n = true.
Proof.
  intros [Hn Hnd]. unfold is_prime. apply andb_true_iff. split.
  - apply Z.leb_le. lia.
  - apply negb_true_iff. unfold has_divisor_below.
    destruct (existsb (fun d => n mod d =? 0)
                (map (fun i => Z.of_nat i + 2)
                   (seq 0 (Z.to_nat (Z.sqrt n) - 1)))) eqn:Hex; [|reflexivity].
    exfalso. apply existsb_exists in Hex. destruct Hex as [d [Hd Hmod]].
    apply in_map_iff in Hd. destruct Hd as [i [<- Hi]]. apply in_seq in Hi.
    apply Z.eqb_eq in Hmod.
    pose proof (Z.sqrt_spec n ltac:(lia)) as [Hlo _].
    assert (Hs : Z.of_nat i + 2 <= Z.sqrt n) by lia.
    apply (Hnd (Z.of_nat i + 2)).
    + split; [lia|]. nia.
    + apply Z.mod_divide; [lia | exact Hmod].
Qed.

Lemma ascendingb_sorted (l : list Z) :
  ascendingb l = true -> Sorted.StronglySorted Z.lt l.
Proof.
  intros H. apply Sorted.Sorted_StronglySorted.
  - intros x y z. apply Z.lt_trans.
  - induction l as [|x [|y l] IH].
    + constructor.
    + constructor; constructor.
    + cbn [ascendingb] in H. apply andb_true_iff in H. destruct H as [Hxy Hl].
      constructor; [apply IH; exact Hl|].
      constructor. apply Z.ltb_lt. exact Hxy.
Qed.

(** X1.  The table holds exactly the primes up to 2741, as the comment on
    line 23 says: 400 entries, strictly ascending, each of them prime, and
    every prime [p <= 2741] among them. *)
Theorem PRIMES_are_the_primes_up_to_2741 :
  length PRIMES = 400%nat /\
  Sorted.StronglySorted Z.lt PRIMES /\
  forall p, In p PRIMES <-> Z.prime p /\ p <= 2741.
Proof.
  split; [reflexivity|]. split.
  - apply ascendingb_sorted. vm_compute. reflexivity.
  - intros p. split.
    + intros Hin. split; [apply PRIMES_prime; exact Hin|].
      pose proof (PRIMES_range p Hin). lia.
    + intros [Hp Hle]. pose proof (Z.prime_ge_2 p Hp) as Hge.
      assert (Hall : In p (primerange 2 3000)).
      { unfold primerange. apply filter_In. split.
        - apply in_map_iff. exists (Z.to_nat (p - 2)). split; [lia|].
          apply in_seq. lia.
        - apply is_prime_complete. exact Hp. }
      assert (Hsplit : primerange 2 3000
                       = PRIMES ++ skipn PRIMES_COUNT (primerange 2 3000))
        by (vm_compute; reflexivity).
      assert (Hrest : forallb (fun q => 2741 <? q)
                        (skipn PRIMES_COUNT (primerange 2 3000)) = true)
        by (vm_compute; reflexivity).
      rewrite Hsplit in Hall. apply in_app_or in Hall.
      destruct Hall as [Hin|Hin]; [exact Hin|].
      rewrite forallb_forall in Hrest. specialize (Hrest p Hin).
      apply Z.ltb_lt in Hrest. lia.
Qed.

(** ** Modular exponentiation (lines 31-40) *)

(** X2.  The loop of [power_mod] takes one turn per binary digit of the
    exponent: it completes within [n] executions of its body exactly when
    [exp < 2^n], whatever the base and the modulus.  An [int64] exponent
    thus needs at most 63 turns. *)
Theorem power_mod_loop_turns (fuel : nat) :
  forall res base exp m,
    power_mod_loop fuel res base exp m <> None <-> exp < 2 ^ Z.of_nat fuel.
Proof.
  induction fuel as [|fuel IH]; intros res base exp m;
    cbn [power_mod_loop]; destruct (Z.gtb_spec exp 0) as [Hpos|Hnpos].
  - change (2 ^ Z.of_nat 0) with 1. split; [congruence | lia].
  - change (2 ^ Z.of_nat 0) with 1. split; [lia | discriminate].
  - rewrite IH, shiftr_1_half, Nat2Z.inj_succ, Z.pow_succ_r by lia.
    pose proof (Z.div_mod exp 2 ltac:(lia)).
    pose proof (Z.mod_pos_bound exp 2 ltac:(lia)). lia.
  - split; [|discriminate]. intros _.
    pose proof (Z.pow_pos_nonneg 2 (Z.of_nat (S fuel)) ltac:(lia) ltac:(lia)).
    lia.
Qed.

(** The invariant of the loop for any non-zero modulus, Python's [%]
    taking the sign of the modulus. *)
Lemma power_mod_loop_signed (fuel : nat) :
  forall res base exp m,
    m <> 0 -> Z.abs m <= MAX_EXACT_MODULUS ->
    Z.abs res <= MAX_EXACT_MODULUS -> Z.abs base < Z.abs m ->
    1 <= exp < 2 ^ Z.of_nat fuel ->
    power_mod_loop fuel res base exp m = Some ((res * base ^ exp) mod m).
Proof.
  unfold MAX_EXACT_MODULUS.
  induction fuel as [|fuel IH]; intros res base exp m Hm Hmax Hres Hbase Hexp.
  - change (2 ^ Z.of_nat 0) with 1 in Hexp. lia.
  - cbn [power_mod_loop]. destruct (Z.gtb_spec exp 0) as [_|?]; [|lia].
    rewrite shiftr_1_half.
    assert (Hrb : mul64 res base = res * base).
    { unfold mul64. apply wrap64_small.
      unfold in_int64, min_signed, max_signed, half_modulus.
      assert (Z.abs (res * base) <= 3037000500 * 3037000499).
      { rewrite Z.abs_mul. apply Z.mul_le_mono_nonneg; lia. }
      lia. }
    assert (Hbb : mul64 base base = base * base).
    { unfold mul64. apply wrap64_small.
      unfold in_int64, min_signed, max_signed, half_modulus.
      assert (Z.abs (base * base) <= 3037000499 * 3037000499).
      { rewrite Z.abs_mul. apply Z.mul_le_mono_nonneg; lia. }
      lia. }
    rewrite Hrb, Hbb.
    assert (Hmodb : forall z, Z.abs (z mod m) < Z.abs m).
    { intros z. destruct (Z_lt_le_dec 0 m).
      - pose proof (Z.mod_pos_bound z m ltac:(lia)). lia.
      - pose proof (Z.mod_neg_bound z m ltac:(lia)). lia. }
    pose proof (Z.div_mod exp 2 ltac:(lia)) as Hdm.
    pose proof (Z.mod_pos_bound exp 2 ltac:(lia)) as Hbit.
    assert (Hhalf : exp / 2 < 2 ^ Z.of_nat fuel).
    { rewrite Nat2Z.inj_succ, Z.pow_succ_r in Hexp by lia. lia. }
    rewrite (pow_halving base exp) by lia.
    destruct (Z.eq_dec (exp / 2) 0) as [Hlast|Hmore].
    + (* the last turn: exp = 1 *)
      assert (Hodd : exp mod 2 = 1) by lia.
      rewrite Hlast, Hodd, Z.eqb_refl.
      destruct fuel; cbn [power_mod_loop]; cbn [Z.gtb Z.compare];
        rewrite Z.pow_0_r, Z.pow_1_r, Z.mul_1_l; reflexivity.
    + destruct (Z.eqb_spec (exp mod 2) 1) as [Hodd|Heven].
      * rewrite IH; try assumption; try lia;
          [|specialize (Hmodb (res * base)); lia | apply Hmodb].
        f_equal. rewrite Hodd, Z.pow_1_r.
        rewrite <- Z.mul_mod_idemp_r, Z.mod_pow_l, Z.mul_mod_idemp_r by lia.
        rewrite Z.mul_mod_idemp_l by lia. f_equal. ring.
      * assert (Hz : exp mod 2 = 0) by lia.
        rewrite IH; try assumption; try lia; [|apply Hmodb].
        f_equal. rewrite Hz, Z.pow_0_r, Z.mul_1_r.
        rewrite <- Z.mul_mod_idemp_r, Z.mod_pow_l, Z.mul_mod_idemp_r by lia.
        reflexivity.
Qed.

(** X3.  Outside the documented moduli: a zero modulus raises
    [ZeroDivisionError] whatever the exponent, [base %= mod] coming before
    the loop; for any other modulus of absolute value at most 3037000500,
    the modulus 1 and negative ones included, and an exponent [e >= 1],
    [power_mod] still returns [base ^ e mod m] with Python's floor
    remainder, which has the sign of the modulus. *)
Theorem power_mod_any_modulus (base exp m : Z) :
  m <> 0 -> Z.abs m <= MAX_EXACT_MODULUS -> 1 <= exp -> in_int64 exp ->
  power_mod base exp m = Some (base ^ exp mod m) /\
  (0 < m -> 0 <= base ^ exp mod m < m) /\
  (m < 0 -> m < base ^ exp mod m <= 0) /\
  (forall e, power_mod base e 0 = None).
Proof.
  intros Hm Hmax He Hr. split; [|split; [|split]].
  - unfold power_mod, py_mod.
    destruct (Z.eqb_spec m 0) as [?|_]; [contradiction|]. cbn [bind].
    rewrite power_mod_loop_signed; try assumption.
    + rewrite Z.mul_1_l, Z.mod_pow_l. reflexivity.
    + unfold MAX_EXACT_MODULUS. lia.
    + destruct (Z_lt_le_dec 0 m).
      * pose proof (Z.mod_pos_bound base m ltac:(lia)). lia.
      * pose proof (Z.mod_neg_bound base m ltac:(lia)). lia.
    + unfold in_int64, min_signed, max_signed, half_modulus in Hr.
      unfold power_mod_fuel. change (Z.of_nat 64) with 64. lia.
  - intros Hpos. apply Z.mod_pos_bound. exact Hpos.
  - intros Hneg. apply Z.mod_neg_bound. exact Hneg.
  - intros e. reflexivity.
Qed.

Lemma power_mod_any_modulus_witness :
  (-5 <> 0 /\ Z.abs (-5) <= MAX_EXACT_MODULUS /\ 1 <= 3 /\ in_int64 3) /\
  power_mod 2 3 (-5) = Some (2 ^ 3 mod -5) /\
  (0 < -5 -> 0 <= 2 ^ 3 mod -5 < -5) /\
  (-5 < 0 -> -5 < 2 ^ 3 mod -5 <= 0) /\
  (forall e, power_mod 2 e 0 = None).
Proof.
  assert (H0 : -5 <> 0) by lia.
  assert (H1 : Z.abs (-5) <= MAX_EXACT_MODULUS)
    by (unfold MAX_EXACT_MODULUS; cbn; lia).
  assert (H2 : 1 <= 3) by lia.
  assert (H3 : in_int64 3)
    by (unfold in_int64, min_signed, max_signed, half_modulus; lia).
  split; [auto | exact (power_mod_any_modulus 2 3 (-5) H0 H1 H2 H3)].
Defined.

(** ** The local trace (lines 55-76) *)

(** X4.  At every prime [p] of the table and for all integers [A], [B],
    the local trace lies in [[-p, p]] and the local group order in
    [[1, 2 p + 1]]; no starting value of the glide loop exceeds 5483. *)
Theorem trace_and_group_order_bounds (a b p : Z) :
  In p PRIMES ->
  exists ap,
    local_trace a b p = Some ap /\
    - p <= ap <= p /\
    1 <= group_order p ap <= 2 * p + 1 /\
    group_order p ap <= 5483.
Proof.
  intros Hin. exists (ap_code a b p).
  pose proof (PRIMES_range p Hin) as Hp.
  pose proof (ap_code_range a b p Hin) as Hr.
  destruct (group_order_code a b p Hin) as [HNp _].
  split; [apply local_trace_code; exact Hin|].
  split; [exact Hr|]. rewrite HNp. lia.
Qed.

Lemma trace_and_group_order_bounds_witness :
  In 7 PRIMES /\
  exists ap,
    local_trace 0 1 7 = Some ap /\
    - 7 <= ap <= 7 /\
    1 <= group_order 7 ap <= 2 * 7 + 1 /\
    group_order 7 ap <= 5483.
Proof.
  split; [exact In_7_PRIMES
         | exact (trace_and_group_order_bounds 0 1 7 In_7_PRIMES)].
Defined.

Lemma wrap64_parity (z : Z) : wrap64 z mod 2 = z mod 2.
Proof.
  destruct (wrap64_shift z) as [k ->]. unfold modulus.
  replace (z + k * 2 ^ 64) with (z + (k * 2 ^ 63) * 2).
  - apply Z_mod_plus_full.
  - change (2 ^ 64) with (2 ^ 63 * 2). ring.
Qed.

(** X5.  At the prime 2 the exponent [(p - 1) // 2] is 0, so [power_mod]
    returns [1 = p - 1] and the remap turns every odd value of the cubic
    into -1: the trace at 2 is the number of [x] in [{0, 1}] at which
    [x^3 + A x + B] is odd, for all integers [A], [B]. *)
Theorem trace_at_two (a b : Z) :
  local_trace a b 2 = Some (b mod 2 + (1 + a + b) mod 2).
Proof.
  assert (Hin : In 2 PRIMES) by (apply (nth_error_In PRIMES 0); reflexivity).
  rewrite local_trace_code by exact Hin. f_equal.
  unfold ap_code. change (range 2) with [0; 1].
  cbn [map zsum fold_right]. unfold fx_code.
  rewrite !cubic64_wrap, !wrap64_parity.
  replace (0 ^ 3 + a * 0 + b) with b by ring.
  replace (1 ^ 3 + a * 1 + b) with (1 + a + b) by ring.
  pose proof (Z.mod_pos_bound b 2 ltac:(lia)) as H0.
  pose proof (Z.mod_pos_bound (1 + a + b) 2 ltac:(lia)) as H1.
  assert (Hremap : forall r, 0 <= r < 2 -> legendre_remap 2 r = - r).
  { intros r Hr. assert (r = 0 \/ r = 1) as [-> | ->] by lia; reflexivity. }
  rewrite !Hremap by assumption. lia.
Qed.

Lemma f_exact_congruent (a b a' b' p x : Z) :
  a mod p = a' mod p -> b mod p = b' mod p ->
  f_exact a b p x = f_exact a' b' p x.
Proof.
  intros Ha Hb. unfold f_exact.
  rewrite (Zplus_mod (x ^ 3 + a * x) b), (Zplus_mod (x ^ 3) (a * x)),
    (Zmult_mod a x), Ha, Hb.
  rewrite (Zplus_mod (x ^ 3 + a' * x) b'), (Zplus_mod (x ^ 3) (a' * x)),
    (Zmult_mod a' x).
  reflexivity.
Qed.

(** X6.  Where line 59 does not overflow, the local trace at a prime [p]
    depends on [A] and [B] through their residues modulo [p] only:
    reducing the coefficients first would not change it. *)
Theorem trace_depends_on_residues (a b a' b' p : Z) :
  In p PRIMES -> cubic_fits a b -> cubic_fits a' b' ->
  a mod p = a' mod p -> b mod p = b' mod p ->
  local_trace a b p = local_trace a' b' p.
Proof.
  intros Hin Hfit Hfit' Ha Hb.
  rewrite !local_trace_code by exact Hin. f_equal.
  rewrite !ap_code_exact by assumption.
  unfold ap_spec, ls_sum_spec. do 2 f_equal.
  apply map_ext. intros x. rewrite (f_exact_congruent a b a' b' p x Ha Hb).
  reflexivity.
Qed.

Lemma cubic_fits_small (a b : Z) :
  Z.abs a <= 1000 -> Z.abs b <= 1000 -> cubic_fits a b.
Proof.
  intros Ha Hb. apply cubic_fits_of_bounds;
    change (10 ^ 15) with 1000000000000000; lia.
Qed.

Lemma trace_depends_on_residues_witness :
  (In 7 PRIMES /\ cubic_fits 10 (-4) /\ cubic_fits 3 3 /\
   10 mod 7 = 3 mod 7 /\ -4 mod 7 = 3 mod 7) /\
  local_trace 10 (-4) 7 = local_trace 3 3 7.
Proof.
  assert (H1 : cubic_fits 10 (-4)) by (apply cubic_fits_small; lia).
  assert (H2 : cubic_fits 3 3) by (apply cubic_fits_small; lia).
  assert (H3 : 10 mod 7 = 3 mod 7) by reflexivity.
  assert (H4 : -4 mod 7 = 3 mod 7) by reflexivity.
  split; [pose proof In_7_PRIMES; auto |
    exact (trace_depends_on_residues 10 (-4) 3 3 7 In_7_PRIMES H1 H2 H3 H4)].
Defined.

(** ** The glide loop (lines 77-87) *)

Lemma glide_loop_S (fuel : nat) (Np curr steps : Z) :
  glide_loop (S fuel) Np curr steps =
    if (curr >? 1) && (steps <? GLIDE_CAP) then
      let curr' :=
        if curr mod 2 =? 0 then Z.shiftr curr 1 else add64 (mul64 3 curr) 1 in
      let steps' := add64 steps 1 in
      if curr' <? Np then Some steps' else glide_loop fuel Np curr' steps'
    else Some steps.
Proof. reflexivity. Qed.

(** One turn of the loop, entered. *)
Lemma glide_turn (n Np curr steps : Z) :
  0 <= n -> 1 < curr -> 0 <= steps < 300 ->
  glide_loop (Z.to_nat (n + 1)) Np curr steps =
    if (if curr mod 2 =? 0 then curr / 2 else add64 (mul64 3 curr) 1) <? Np
    then Some (steps + 1)
    else glide_loop (Z.to_nat n) Np
           (if curr mod 2 =? 0 then curr / 2 else add64 (mul64 3 curr) 1)
           (steps + 1).
Proof.
  intros Hn Hcurr Hsteps.
  replace (Z.to_nat (n + 1)) with (S (Z.to_nat n)) by lia.
  rewrite glide_loop_S. unfold GLIDE_CAP.
  destruct (Z.gtb_spec curr 1) as [_|?]; [|lia].
  destruct (Z.ltb_spec steps 300) as [_|?]; [|lia].
  cbn [andb]. cbv zeta. rewrite shiftr_1_half.
  assert (Hadd : add64 steps 1 = steps + 1).
  { unfold add64. apply wrap64_small, small_in_int64. lia. }
  rewrite Hadd. reflexivity.
Qed.

Lemma glide_start (Np : Z) : glide Np = glide_loop (Z.to_nat (299 + 1)) Np Np 0.
Proof. reflexivity. Qed.

Lemma glide_loop_at_least (n Np curr steps : Z) :
  0 <= steps <= 300 -> 300 - steps <= n ->
  forall s, glide_loop (Z.to_nat n) Np curr steps = Some s -> steps <= s.
Proof.
  intros Hs Hf s Heq.
  destruct (glide_loop_total (Z.to_nat n) Np curr steps) as [s' [Hs' Hle]];
    unfold GLIDE_CAP; try lia.
  rewrite Heq in Hs'. injection Hs' as <-. lia.
Qed.

Lemma glide_is_zero_iff (Np : Z) : glide Np = Some 0 <-> Np <= 1.
Proof.
  split.
  - intros H0. destruct (Z_le_gt_dec Np 1) as [Hle|Hgt]; [exact Hle|].
    exfalso. rewrite glide_start, glide_turn in H0 by lia.
    match type of H0 with
    | (if ?c then _ else _) = _ => destruct c; [discriminate|]
    end.
    apply glide_loop_at_least in H0; lia.
  - intros Hle. rewrite glide_start.
    replace (Z.to_nat (299 + 1)) with (S (Z.to_nat 299)) by lia.
    rewrite glide_loop_S.
    destruct (Z.gtb_spec Np 1) as [?|_]; [lia|]. reflexivity.
Qed.

Lemma glide_of_even (Np : Z) : 2 <= Np -> Np mod 2 = 0 -> glide Np = Some 1.
Proof.
  intros HNp Heven. rewrite glide_start, glide_turn by lia.
  rewrite Heven. cbn [Z.eqb].
  assert (Hhalf : Np / 2 < Np) by (apply Z.div_lt; lia).
  apply Z.ltb_lt in Hhalf. rewrite Hhalf. reflexivity.
Qed.

Lemma glide_of_odd (Np : Z) :
  3 <= Np <= 3074457345618258602 -> Np mod 2 = 1 ->
  exists steps, glide Np = Some steps /\ 3 <= steps <= 300.
Proof.
  intros HNp Hodd.
  destruct (glide_total Np) as [s [Hs Hrange]]. unfold GLIDE_CAP in Hrange.
  exists s. split; [exact Hs|]. split; [|lia].
  rewrite glide_start, glide_turn in Hs by lia.
  rewrite Hodd in Hs. cbn [Z.eqb] in Hs.
  assert (H3 : add64 (mul64 3 Np) 1 = 3 * Np + 1).
  { unfold add64, mul64.
    rewrite (wrap64_small (3 * Np))
      by (unfold in_int64, min_signed, max_signed, half_modulus; lia).
    apply wrap64_small.
    unfold in_int64, min_signed, max_signed, half_modulus. lia. }
  rewrite H3 in Hs.
  destruct (Z.ltb_spec (3 * Np + 1) Np) as [?|_]; [lia|].
  change 299 with (298 + 1) in Hs. rewrite glide_turn in Hs by lia.
  assert (Heven : (3 * Np + 1) mod 2 = 0).
  { rewrite Z.add_mod, Z.mul_mod, Hodd by lia. reflexivity. }
  rewrite Heven in Hs. cbn [Z.eqb] in Hs.
  assert (Hhalf : Np <= (3 * Np + 1) / 2).
  { apply Z.div_le_lower_bound; lia. }
  destruct (Z.ltb_spec ((3 * Np + 1) / 2) Np) as [?|_]; [lia|].
  change 298 with (297 + 1) in Hs. rewrite glide_turn in Hs by lia.
  match type of Hs with
  | (if ?c then _ else _) = _ => destruct c
  end.
  - injection Hs as <-. lia.
  - apply glide_loop_at_least in Hs; lia.
Qed.

(** X7.  The glide is 0 exactly for the starting values [Np <= 1], on
    which the loop is not entered; and it is 1 for every even [Np >= 2],
    whose first halving already falls below the start. *)
Theorem glide_zero_and_one (Np : Z) :
  (glide Np = Some 0 <-> Np <= 1) /\
  (2 <= Np /\ Np mod 2 = 0 -> glide Np = Some 1).
Proof.
  split; [apply glide_is_zero_iff|].
  intros [HNp Heven]. apply glide_of_even; assumption.
Qed.

(** X8.  An odd starting value [Np >= 3] glides for at least 3 steps:
    [3 Np + 1] and its half are both at least [Np].  (The bound on [Np]
    keeps [3 Np + 1] inside 64 bits.) *)
Theorem glide_odd_at_least_three (Np : Z) :
  3 <= Np <= 3074457345618258602 -> Np mod 2 = 1 ->
  exists steps, glide Np = Some steps /\ 3 <= steps <= 300.
Proof. apply glide_of_odd. Qed.

Lemma glide_odd_at_least_three_witness :
  (3 <= 27 <= 3074457345618258602 /\ 27 mod 2 = 1) /\
  exists steps, glide 27 = Some steps /\ 3 <= steps <= 300.
Proof.
  assert (H1 : 3 <= 27 <= 3074457345618258602) by lia.
  assert (H2 : 27 mod 2 = 1) by reflexivity.
  split; [auto | exact (glide_odd_at_least_three 27 H1 H2)].
Defined.

(** X9.  The dynamic resistance returned by [analyze_physics] is never 2:
    it is 0, 1 or at least 3 (and at most 300), since a glide of 2 does
    not exist. *)
Theorem dynamic_resistance_never_two
  (np_log2 : Z -> F64.float64) (a b : Z) :
  exists score resistance,
    analyze_physics np_log2 a b = Some (score, resistance) /\
    (resistance = 0 \/ resistance = 1 \/ 3 <= resistance <= 300).
Proof.
  exists (score_fold np_log2 (ap_code a b) PRIMES F64.zero),
         (resistance_fold a b PRIMES 0).
  split; [apply analyze_physics_code|].
  unfold resistance_fold.
  destruct (fold_max_attained
              (fun q => glide_spec (q + 1 - ap_code a b q)) PRIMES 0)
    as [->|[p [Hin <-]]]; [left; reflexivity|].
  destruct (group_order_code a b p Hin) as [_ HNp].
  pose proof (glide_code _ HNp) as Hglide.
  unfold MAX_GROUP_ORDER in HNp.
  destruct (Z.eq_dec (p + 1 - ap_code a b p) 1) as [H1|H1].
  - left. destruct (glide_is_zero_iff (p + 1 - ap_code a b p)) as [_ Hz].
    rewrite Hz in Hglide by lia. congruence.
  - pose proof (Z.mod_pos_bound (p + 1 - ap_code a b p) 2 ltac:(lia)) as Hbit.
    destruct (Z.eq_dec ((p + 1 - ap_code a b p) mod 2) 0) as [Heven|Hodd].
    + right. left. rewrite glide_of_even in Hglide by lia. congruence.
    + right. right.
      assert (Hne2 : p + 1 - ap_code a b p <> 2).
      { intros E. rewrite E in Hodd. apply Hodd. reflexivity. }
      destruct (glide_of_odd (p + 1 - ap_code a b p)
                  ltac:(lia) ltac:(lia)) as [s [Hs Hs3]].
      rewrite Hs in Hglide. injection Hglide as <-. exact Hs3.
Qed.

(** ** The thresholds (lines 118-124 and 144) *)

Lemma below_m28_below_m25 (x : F64.float64) :
  F64.ltb x lit_m28 = true -> F64.ltb x lit_m25 = true.
Proof.
  unfold F64.ltb, SFltb, lit_m28, lit_m25.
  destruct x as [s|s| |s m e]; cbn [SFcompare]; try destruct s;
    try discriminate; try reflexivity.
  destruct (Z.compare e (-48)); try discriminate; try reflexivity.
  rewrite !Pos.compare_cont_spec.
  destruct (Pos.compare_spec m 7881299347898368) as [?|?|Hgt];
    cbn [Pos.switch_Eq CompOpp]; try discriminate.
  intros _.
  destruct (Pos.compare_spec m 7036874417766400) as [Heq|Hlt|_];
    cbn [Pos.switch_Eq CompOpp]; [exfalso | exfalso | reflexivity].
  - subst m. vm_compute in Hgt. discriminate Hgt.
  - pose proof (Pos.lt_trans _ _ _ Hgt Hlt) as Habs.
    vm_compute in Habs. discriminate Habs.
Qed.

Lemma below_m25_not_above_m10 (x : F64.float64) :
  F64.ltb x lit_m25 = true -> F64.ltb lit_m10 x = false.
Proof.
  unfold F64.ltb, SFltb, lit_m25, lit_m10.
  destruct x as [s|s| |s m e]; cbn [SFcompare]; try destruct s;
    try discriminate; try reflexivity.
  destruct (Z.compare_spec e (-48)) as [He|He|He]; try discriminate;
    intros _.
  - subst e. reflexivity.
  - destruct (Z.compare_spec (-49) e) as [Heq|_|Hlt];
      [exfalso; lia | reflexivity | exfalso; lia].
Qed.

(** X10.  The two probe thresholds cannot both apply: a score below
    [-25.0] is not above [-10.0].  Hence "low rank" is reported exactly
    when [score > -10.0], whatever the glide, and for a score below [-25.0]
    the glide alone separates the high-rank candidates from the
    indeterminate cases. *)
Theorem probe_thresholds_disjoint (score : F64.float64) (glide_ : Z) :
  (classify_probe score glide_ = LowRank <-> F64.ltb lit_m10 score = true) /\
  (F64.ltb score lit_m25 = true ->
   classify_probe score glide_ =
     if glide_ >? 65 then HighRankCandidate else Indeterminate).
Proof.
  unfold classify_probe.
  pose proof (below_m25_not_above_m10 score) as Hdisj.
  destruct (F64.ltb score lit_m25); destruct (glide_ >? 65);
    destruct (F64.ltb lit_m10 score); cbn [andb];
    try (specialize (Hdisj eq_refl); discriminate Hdisj);
    (split; [split; intros H; (reflexivity || discriminate H)
            | intros H; (reflexivity || discriminate H)]).
Qed.

(** X11.  The mining threshold is stricter than the probe's, as line 143
    says: every titan ([score < -28.0] and [glide > 80]) is a high-rank
    candidate for the probe. *)
Theorem titan_is_high_rank_candidate (score : F64.float64) (glide_ : Z) :
  is_titan score glide_ = true ->
  classify_probe score glide_ = HighRankCandidate.
Proof.
  unfold is_titan, classify_probe. intros H.
  apply andb_true_iff in H. destruct H as [Hs Hg].
  rewrite (below_m28_below_m25 score Hs).
  apply Z.gtb_lt in Hg.
  destruct (Z.gtb_spec glide_ 65) as [_|?]; [reflexivity | lia].
Qed.

Lemma titan_is_high_rank_candidate_witness :
  is_titan (F64.of_int (-30)) 90 = true /\
  classify_probe (F64.of_int (-30)) 90 = HighRankCandidate.
Proof.
  assert (H : is_titan (F64.of_int (-30)) 90 = true)
    by (vm_compute; reflexivity).
  split; [exact H | exact (titan_is_high_rank_candidate _ _ H)].
Defined.

(** ** The random search (lines 126-160) *)

Section MinerFacts.

Variable np_log2 : Z -> F64.float64.

Lemma analyze_physics_result (a b : Z) (score : F64.float64) (glide_ : Z) :
  analyze_physics np_log2 a b = Some (score, glide_) ->
  score = score_fold np_log2 (ap_code a b) PRIMES F64.zero /\
  glide_ = resistance_fold a b PRIMES 0.
Proof.
  intros H. rewrite analyze_physics_code in H. split; congruence.
Qed.

Lemma mine_iteration_code (st : miner_state) (draw : Z * Z) :
  mine_iteration np_log2 st draw =
    Some {| attempts :=
              attempts st +
              (if is_singular (fst draw) (snd draw) then 0 else 1);
            titans_file := titans_file st ++ lines_of_draw np_log2 draw |}.
Proof.
  destruct draw as [a b]. destruct st as [n file].
  unfold mine_iteration, lines_of_draw. cbn [fst snd attempts titans_file].
  destruct (is_singular a b).
  - rewrite Z.add_0_r, app_nil_r. reflexivity.
  - rewrite analyze_physics_code. cbn [bind].
    destruct (is_titan _ _); [reflexivity|].
    rewrite app_nil_r. reflexivity.
Qed.

(** A run in closed form. *)
Lemma mine_titans_run_code (draws : list (Z * Z)) :
  forall st,
    mine_titans_run np_log2 draws st =
      Some {| attempts :=
                attempts st + Z.of_nat (length (analysed_draws draws));
              titans_file :=
                titans_file st ++ flat_map (lines_of_draw np_log2) draws |}.
Proof.
  induction draws as [|draw draws IH]; intros st.
  - destruct st as [n file]. cbn [mine_titans_run analysed_draws filter length
      flat_map attempts titans_file].
    rewrite Z.add_0_r, app_nil_r. reflexivity.
  - cbn [mine_titans_run]. rewrite mine_iteration_code. cbn [bind].
    rewrite IH. cbn [attempts titans_file flat_map].
    unfold analysed_draws. cbn [filter].
    destruct (is_singular (fst draw) (snd draw)); cbn [negb length];
      rewrite <- app_assoc; do 2 f_equal; lia.
Qed.

Lemma lines_of_draw_sound (draw : Z * Z) (l : titan_line) :
  In l (lines_of_draw np_log2 draw) ->
  (line_A l, line_B l) = draw /\ line_is_sound np_log2 l.
Proof.
  destruct draw as [a b]. unfold lines_of_draw, line_is_sound.
  cbn [fst snd].
  destruct (is_singular a b) eqn:Hsing; [contradiction|].
  destruct (analyze_physics np_log2 a b) as [[score glide_]|] eqn:Han;
    [|contradiction].
  destruct (is_titan score glide_) eqn:Htitan; [|contradiction].
  intros [<-|[]]. cbn [line_A line_B line_BSD line_Glide]. auto.
Qed.

Lemma lines_of_draw_length (draw : Z * Z) :
  (length (lines_of_draw np_log2 draw)
   <= if is_singular (fst draw) (snd draw) then 0 else 1)%nat.
Proof.
  unfold lines_of_draw. destruct (is_singular _ _); [cbn; lia|].
  destruct (analyze_physics _ _ _) as [[score glide_]|]; [|cbn; lia].
  destruct (is_titan _ _); cbn; lia.
Qed.

Lemma lines_of_run_length (draws : list (Z * Z)) :
  (length (flat_map (lines_of_draw np_log2) draws)
   <= length (analysed_draws draws))%nat.
Proof.
  induction draws as [|draw draws IH]; [cbn; lia|].
  cbn [flat_map]. rewrite length_app.
  pose proof (lines_of_draw_length draw) as H.
  unfold analysed_draws in *. cbn [filter].
  destruct (is_singular (fst draw) (snd draw)); cbn [negb length] in *; lia.
Qed.

End MinerFacts.

(** X12.  Accounting of a run of [mine_titans]: singular draws are neither
    analysed nor counted, so [attempts] grows by the number of non-singular
    draws; the file is only appended to (earlier lines stay as they are),
    by at most one line per counted attempt; and every line added records
    a non-singular drawn pair, the signatures the analyser returns for it,
    both beyond the titan thresholds. *)
Theorem mine_run_accounting
  (np_log2 : Z -> F64.float64) (draws : list (Z * Z)) (st : miner_state) :
  exists st' added,
    mine_titans_run np_log2 draws st = Some st' /\
    attempts st' = attempts st + Z.of_nat (length (analysed_draws draws)) /\
    titans_file st' = titans_file st ++ added /\
    (length added <= length (analysed_draws draws))%nat /\
    Forall (fun l => In (line_A l, line_B l) draws /\
                     line_is_sound np_log2 l) added.
Proof.
  eexists. exists (flat_map (lines_of_draw np_log2) draws).
  split; [apply mine_titans_run_code|]. cbn [attempts titans_file].
  split; [reflexivity|]. split; [reflexivity|].
  split; [apply lines_of_run_length|].
  apply Forall_forall. intros l Hl. apply in_flat_map in Hl.
  destruct Hl as [draw [Hdraw Hin]].
  destruct (lines_of_draw_sound np_log2 draw l Hin) as [Heq Hsound].
  rewrite Heq. auto.
Qed.

(** X13.  On draws from the range of [random.randint(-10**12, 10**12)]
    line 59 never overflows: every line a run adds to the file carries
    the analytic score of the specification for its pair, a glide in
    [(80, 300]], and a curve that the probe would call a high-rank
    candidate. *)
Theorem mined_lines_are_exact
  (np_log2 : Z -> F64.float64) (draws : list (Z * Z)) (st : miner_state) :
  Forall in_search_range draws ->
  exists st' added,
    mine_titans_run np_log2 draws st = Some st' /\
    titans_file st' = titans_file st ++ added /\
    Forall (fun l =>
              analytic_score_claim np_log2 (line_A l) (line_B l) /\
              line_BSD l = analytic_score_spec np_log2 (line_A l) (line_B l) /\
              80 < line_Glide l <= 300 /\
              classify_probe (line_BSD l) (line_Glide l) = HighRankCandidate)
           added.
Proof.
  intros Hrange. eexists. exists (flat_map (lines_of_draw np_log2) draws).
  split; [apply mine_titans_run_code|]. cbn [titans_file].
  split; [reflexivity|].
  apply Forall_forall. intros l Hl. apply in_flat_map in Hl.
  destruct Hl as [draw [Hdraw Hin]].
  destruct (lines_of_draw_sound np_log2 draw l Hin) as [Heq [_ [Han Htitan]]].
  rewrite Forall_forall in Hrange. specialize (Hrange draw Hdraw).
  rewrite <- Heq in Hrange. destruct Hrange as [Ha Hb]. cbn [fst snd] in Ha, Hb.
  assert (Hfit : cubic_fits (line_A l) (line_B l)).
  { apply cubic_fits_of_bounds;
      change (10 ^ 15) with 1000000000000000; lia. }
  pose proof (analytic_score_exact np_log2 _ _ Hfit) as Hclaim.
  split; [exact Hclaim|].
  destruct Hclaim as [_ [g Hg]]. rewrite Han in Hg.
  split; [congruence|].
  destruct (analyze_physics_result np_log2 _ _ _ _ Han) as [_ Hglide].
  pose proof (resistance_fold_range (line_A l) (line_B l)) as Hcap.
  rewrite <- Hglide in Hcap.
  split.
  - unfold is_titan in Htitan. apply andb_true_iff in Htitan.
    destruct Htitan as [_ Hg80]. apply Z.gtb_lt in Hg80. lia.
  - unfold is_titan, classify_probe in *.
    apply andb_true_iff in Htitan. destruct Htitan as [Hs Hg80].
    rewrite (below_m28_below_m25 _ Hs). apply Z.gtb_lt in Hg80.
    destruct (Z.gtb_spec (line_Glide l) 65) as [_|?]; [reflexivity | lia].
Qed.

Lemma mined_lines_are_exact_witness :
  Forall in_search_range [(-3, 2); (1000000000000, -1000000000000)] /\
  exists st' added,
    mine_titans_run (fun p => F64.of_int p)
      [(-3, 2); (1000000000000, -1000000000000)]
      {| attempts := 0; titans_file := [] |} = Some st' /\
    titans_file st' = titans_file {| attempts := 0; titans_file := [] |} ++ added /\
    Forall (fun l =>
              analytic_score_claim (fun p => F64.of_int p) (line_A l) (line_B l) /\
              line_BSD l
                = analytic_score_spec (fun p => F64.of_int p) (line_A l) (line_B l) /\
              80 < line_Glide l <= 300 /\
              classify_probe (line_BSD l) (line_Glide l) = HighRankCandidate)
           added.
Proof.
  assert (H : Forall in_search_range
                [(-3, 2); (1000000000000, -1000000000000)]).
  { repeat constructor; cbn [fst snd]; lia. }
  split; [exact H | exact (mined_lines_are_exact _ _ _ H)].
Defined.
